(** * librosa.segment: recurrence matrices, time-lag coordinates, path enhancement

    A shallow embedding of [librosa/segment.py] and the properties of
    - [recurrence_matrix]   (nearest-neighbour recurrence graph),
    - [recurrence_to_lag] / [lag_to_recurrence]   (time-lag transform),
    - [timelag_filter]   (filtering in time-lag coordinates),
    - [agglomerative] / [subsegment]   (temporal segmentation),
    - [path_enhance]   (multi-angle diagonal smoothing).

    Conventions.
    - A Python exception is a value [Raise e] of the [result] type.
    - An array is an [ndarray]: its [shape] tuple and, for the two-dimensional
      case, its rows.  A scipy sparse matrix is the same content tagged with
      its storage format; format conversions change the tag only, and the
      tag decides whether the matrix can be subscripted.
    - float64 values are real numbers ([R]); rounding, overflow and underflow
      are not modelled, so nothing is proved here that depends on the digits
      of a computed logarithm, power or exponential.  The one non-finite
      value the module produces on purpose, NaN, is explicit in [float].
    - scikit-learn, scipy.ndimage and [librosa.util] are outside this file:
      their functions are parameters that return a value, and the properties
      speak of the calls on which they do. *)

From Stdlib Require Import String.
From Stdlib Require Import List ZArith Lia Bool Reals Lra PeanoNat Sorted.
Import ListNotations.

(* ================================================================= *)
(** ** Exceptions and results *)

Inductive exception : Type :=
| ParameterError
| IndexError
| TypeError
| ValueError
| ZeroDivisionError.

Inductive result (T : Type) : Type :=
| Ok (v : T)
| Raise (e : exception).

Arguments Ok {T} v.
Arguments Raise {T} e.

Definition bind {T U : Type} (x : result T) (f : T -> result U) : result U :=
  match x with
  | Ok v => f v
  | Raise e => Raise e
  end.

Notation "'do' x <- e1 ; e2" := (bind e1 (fun x => e2))
  (at level 10, x name, e1 at level 100, e2 at level 200).

(* ================================================================= *)
(** ** Arrays *)

(** [shape] is the Python tuple [a.shape]; [rows] holds the entries of a
    two-dimensional array in row-major order. *)
Record ndarray (A : Type) : Type := mk_ndarray {
  shape : list nat;
  rows : list (list A)
}.

Arguments mk_ndarray {A} shape rows.
Arguments shape {A} n.
Arguments rows {A} n.

(** scipy.sparse storage formats. *)
Inductive format : Type := csr | csc | lil | coo | dok | dia | bsr.

(** A dense [np.ndarray] or a [scipy.sparse] matrix in some format. *)
Inductive matrix (A : Type) : Type :=
| Dense (a : ndarray A)
| Sparse (fmt : format) (a : ndarray A).

Arguments Dense {A} a.
Arguments Sparse {A} fmt a.

Definition content {A} (m : matrix A) : ndarray A :=
  match m with
  | Dense a => a
  | Sparse _ a => a
  end.

Definition issparse {A} (m : matrix A) : bool :=
  match m with
  | Dense _ => false
  | Sparse _ _ => true
  end.

Definition asformat {A} (fmt : format) (m : matrix A) : matrix A :=
  Sparse fmt (content m).

(** Whether [m[...]] is defined: an ndarray and the sparse formats csr, csc,
    lil and dok support subscripting; a coo, dia or bsr matrix does not
    (TypeError: the object is not subscriptable). *)
Definition subscriptable {A} (m : matrix A) : bool :=
  match m with
  | Dense _ => true
  | Sparse (csr | csc | lil | dok) _ => true
  | Sparse (coo | dia | bsr) _ => false
  end.

Definition tocsr {A} (m : matrix A) : matrix A := asformat csr m.
Definition tocsc {A} (m : matrix A) : matrix A := asformat csc m.
Definition tolil {A} (m : matrix A) : matrix A := asformat lil m.

(** Python tuple indexing [tup[i]], negative indices counting from the end. *)
Definition tuple_index (tup : list nat) (i : Z) : result nat :=
  let n := Z.of_nat (length tup) in
  let j := if (i <? 0)%Z then (n + i)%Z else i in
  if (j <? 0)%Z then Raise IndexError
  else match nth_error tup (Z.to_nat j) with
       | Some v => Ok v
       | None => Raise IndexError
       end.

(** [range(lo, hi)] over the integers. *)
Definition range (lo hi : Z) : list Z :=
  map (fun n => (lo + Z.of_nat n)%Z) (seq 0 (Z.to_nat (hi - lo))).

(** Python list slice [l[k:]]. *)
Definition slice_from {T} (k : Z) (l : list T) : list T :=
  if (k <? 0)%Z then skipn (Z.to_nat (Z.of_nat (length l) + k)) l
  else skipn (Z.to_nat k) l.

Fixpoint list_update {T} (i : nat) (x : T) (l : list T) : list T :=
  match l, i with
  | [], _ => []
  | _ :: l', O => x :: l'
  | y :: l', S i' => y :: list_update i' x l'
  end.

Fixpoint map2 {T U V} (f : T -> U -> V) (l : list T) (l' : list U) : list V :=
  match l, l' with
  | x :: l, y :: l' => f x y :: map2 f l l'
  | _, _ => []
  end.

(** [a] is a two-dimensional array of shape [(r, c)] whose rows agree with
    its shape. *)
Definition is_matrix {A} (r c : nat) (a : ndarray A) : bool :=
  match shape a with
  | [r'; c'] =>
      (r' =? r) && (c' =? c) && (length (rows a) =? r)
      && forallb (fun row => length row =? c) (rows a)
  | _ => false
  end.

(** The number of slices of an [r] by [c] array along axis [ax], and the
    length of each. *)
Definition slice_count (ax r c : nat) : nat := if ax =? 0 then r else c.
Definition slice_length (ax r c : nat) : nat := if ax =? 0 then c else r.

(** Shape of the padded lag array when the time axis is [ax]. *)
Definition lag_rows (ax t : nat) : nat := if ax =? 0 then t else t + t.
Definition lag_cols (ax t : nat) : nat := if ax =? 0 then t + t else t.

Section Arrays.
Context {A : Type} (zero : A).

(** [m[i, j]] *)
Definition get (m : list (list A)) (i j : nat) : A :=
  nth j (nth i m []) zero.

(** The [r] by [c] array with entry [f i j] at [(i, j)]. *)
Definition tabulate (r c : nat) (f : nat -> nat -> A) : list (list A) :=
  map (fun i => map (f i) (seq 0 c)) (seq 0 r).

(** [a.T] *)
Definition transpose (a : ndarray A) : ndarray A :=
  match shape a with
  | [r; c] => mk_ndarray [c; r] (tabulate c r (fun i j => get (rows a) j i))
  | _ => a
  end.

(** [np.pad(a, padding, mode='constant')] where [padding] is [(0, n)] on
    axis [ax] and [(0, 0)] on the other axis. *)
Definition np_pad (ax n : nat) (a : ndarray A) : ndarray A :=
  match shape a with
  | [r; c] =>
      if ax =? 0
      then mk_ndarray [r + n; c] (rows a ++ repeat (repeat zero c) n)
      else mk_ndarray [r; c + n] (map (fun row => row ++ repeat zero n) (rows a))
  | _ => a
  end.

(** [scipy.sparse.kron(K, a)] for [K = np.asarray([[1, 0]]).swapaxes(axis, 0)].
    [K] is [[1, 0]] (axis 0) or its transpose (axis 1) and stores the single
    entry 1, so the product is the block matrix [a | 0], respectively
    [a] on top of a zero block. *)
Definition kron_unit (axis : nat) (a : ndarray A) : ndarray A :=
  match shape a with
  | [r; c] =>
      if axis =? 0
      then mk_ndarray [r; 2 * c] (map (fun row => row ++ repeat zero c) (rows a))
      else mk_ndarray [2 * r; c] (rows a ++ repeat (repeat zero c) r)
  | _ => a
  end.

(** [a[i, :]] (axis 0) or [a[:, i]] (axis 1). *)
Definition get_slice (axis i : nat) (a : ndarray A) : list A :=
  if axis =? 0 then nth i (rows a) []
  else map (fun row => nth i row zero) (rows a).

(** [a[i, :] = v] (axis 0) or [a[:, i] = v] (axis 1). *)
Definition set_slice (axis i : nat) (v : list A) (a : ndarray A) : ndarray A :=
  mk_ndarray (shape a)
    (if axis =? 0 then list_update i v (rows a)
     else map2 (fun row x => list_update i x row) (rows a) v).

(** [a[:t, :]] (axis 0) or [a[:, :t]] (axis 1). *)
Definition slice_upto (axis t : nat) (a : ndarray A) : ndarray A :=
  match shape a with
  | [r; c] =>
      if axis =? 0
      then mk_ndarray [Nat.min t r; c] (firstn t (rows a))
      else mk_ndarray [r; Nat.min t c] (map (firstn t) (rows a))
  | _ => a
  end.

(** Modelled from the spec: [util.roll_sparse] lives in [librosa/util], which
    is not part of this file's source.  The slice is "cyclically rotated" by
    [shift] positions, as [numpy.roll] does: the result is
    [x[-shift:] ++ x[:-shift]] with [shift] taken modulo the length. *)
Definition roll_sparse (x : list A) (shift : Z) : list A :=
  let n := length x in
  let s := Z.to_nat (shift mod Z.of_nat n) in
  skipn (n - s) x ++ firstn (n - s) x.

(** [recurrence_to_lag(rec, pad, axis)] *)
Definition recurrence_to_lag (rec : matrix A) (pad : bool) (axis : Z)
  : result (matrix A) :=
  let axis := Z.abs axis in
  match shape (content rec) with
  | [s0; s1] =>
      if negb (s0 =? s1) then Raise ParameterError else
      let sparse := issparse rec in
      let lag_format := match rec with Sparse fmt _ => fmt | Dense _ => csr end in
      let rec :=
        if sparse then
          if (axis =? 0)%Z then tocsc rec
          else if (axis =? -1)%Z || (axis =? 1)%Z then tocsr rec
          else rec
        else rec in
      do t <- tuple_index (shape (content rec)) axis;
      let ax := Z.to_nat axis in
      let lag :=
        if sparse then
          if pad then kron_unit ax (content rec) else content rec
        else
          if pad then np_pad (1 - ax) t (content rec) else content rec in
      let lag :=
        fold_left
          (fun lag i =>
             set_slice ax i (roll_sparse (get_slice ax i lag) (- Z.of_nat i)) lag)
          (seq 1 (t - 1)) lag in
      Ok (if sparse then Sparse lag_format lag else Dense lag)
  | _ => Raise ParameterError
  end.

(** [m[tuple(idx_slice)]] with [idx_slice[axis] = i], read from the matrix
    [m] as the caller passed it. *)
Definition getitem (m : matrix A) (axis i : nat) : result (list A) :=
  if subscriptable m then Ok (get_slice axis i (content m)) else Raise TypeError.

(** [lag_to_recurrence(lag, axis)].  The loop writes into [rec], a copy of
    [lag] (a lil copy when [lag] is sparse), and reads the slices from [lag]
    itself, in whatever format it came. *)
Definition lag_to_recurrence (lag : matrix A) (axis : Z) : result (matrix A) :=
  if negb (existsb (Z.eqb axis) [0; 1; -1]%Z) then Raise ParameterError else
  let axis := Z.abs axis in
  match shape (content lag) with
  | [s0; s1] =>
      do sc <- tuple_index [s0; s1] (1 - axis);
      do t <- tuple_index [s0; s1] axis;
      if negb (s0 =? s1) && negb (sc =? 2 * t) then Raise ParameterError else
      let ax := Z.to_nat axis in
      do rec <-
        fold_left
          (fun rec i =>
             do rec <- rec;
             do slice <- getitem lag ax i;
             Ok (set_slice ax i (roll_sparse slice (Z.of_nat i)) rec))
          (seq 1 (t - 1)) (Ok (content lag));
      let rec := slice_upto (1 - ax) t rec in
      Ok (match lag with
          | Sparse fmt _ => Sparse fmt rec
          | Dense _ => Dense rec
          end)
  | _ => Raise ParameterError
  end.

End Arrays.

(* ================================================================= *)
(** ** Real-valued helpers *)

(** A float64 value: a real number, or NaN. *)
Inductive float : Type :=
| NaN
| Fin (x : R).

(** [x != 0] *)
Definition Rnonzero (x : R) : bool := if Req_dec_T x 0 then false else true.

(** [x < y] *)
Definition Rltb (x y : R) : bool := if Rlt_dec x y then true else false.

(** [x <= y] *)
Definition Rleb (x y : R) : bool := if Rle_dec x y then true else false.

Fixpoint insert_by {T} (le : T -> T -> bool) (x : T) (l : list T) : list T :=
  match l with
  | [] => [x]
  | y :: l' => if le x y then x :: l else y :: insert_by le x l'
  end.

Definition sort_by {T} (le : T -> T -> bool) (l : list T) : list T :=
  fold_right (insert_by le) [] l.

(** [np.argsort(vals)]: the positions of [vals] in ascending order of value.
    numpy leaves the order among equal values to the sorting algorithm; here
    equal values keep their original order.  No result below depends on it. *)
Definition argsort (vals : list R) : list nat :=
  map fst
    (sort_by (fun p q : nat * R => Rleb (snd p) (snd q))
       (combine (seq 0 (length vals)) vals)).

(** [np.ceil(np.sqrt(m))] on an integer. *)
Definition ceil_sqrt (m : Z) : Z :=
  let s := Z.sqrt m in
  if (s * s =? m)%Z then s else (s + 1)%Z.

(** [a.setdiag(v, d)]: entries [(i, i + d)] become [v]. *)
Definition setdiag (v : R) (d : Z) (a : ndarray R) : ndarray R :=
  match shape a with
  | [r; c] =>
      mk_ndarray [r; c]
        (tabulate r c
           (fun i j =>
              if (Z.of_nat j - Z.of_nat i =? d)%Z then v else get 0%R (rows a) i j))
  | _ => a
  end.

(** [a.minimum(b)]: the element-wise minimum. *)
Definition minimum (a b : ndarray R) : ndarray R :=
  match shape a with
  | [r; c] =>
      mk_ndarray [r; c]
        (tabulate r c
           (fun i j => Rmin (get 0%R (rows a) i j) (get 0%R (rows b) i j)))
  | _ => a
  end.

(** [row.nonzero()[1]]: the columns holding a non-zero value, ascending. *)
Definition nonzero_cols (row : list R) : list nat :=
  filter (fun j => Rnonzero (nth j row 0%R)) (seq 0 (length row)).

(** One pass of the top-k loop on row [i]:
    [links = rec[i].nonzero()[1]],
    [idx = links[np.argsort(rec[i, links].toarray())][0]],
    [rec[i, idx[k:]] = 0]. *)
Definition prune_row (k : Z) (row : list R) : list R :=
  let links := nonzero_cols row in
  let idx :=
    map (fun o => nth o links O)
      (argsort (map (fun j => nth j row 0%R) links)) in
  let squashed := slice_from k idx in
  map (fun j => if existsb (Nat.eqb j) squashed then 0%R else nth j row 0%R)
    (seq 0 (length row)).

(** The largest entry of a row, implicit zeros included. *)
Definition row_max (row : list R) : R :=
  match row with
  | [] => 0%R
  | x :: l => fold_left Rmax l x
  end.

(** [rec.max(axis=1).data]: the row maxima that scipy stores, i.e. the
    non-zero ones. *)
Definition max_axis1_data (a : ndarray R) : list R :=
  filter Rnonzero (map row_max (rows a)).

(** [np.nanmedian] of a list of finite values; NaN on the empty list. *)
Definition nanmedian (l : list R) : float :=
  match l with
  | [] => NaN
  | _ =>
      let s := sort_by Rleb l in
      let n := length s in
      if Nat.even n
      then Fin ((nth (n / 2 - 1) s 0 + nth (n / 2) s 0) / 2)%R
      else Fin (nth (n / 2) s 0%R)
  end.

(** The affinity mapping on one entry of the csr matrix.  A zero entry is not
    stored and stays zero.  On stored entries:
    [rec.data[rec.data < 0] = 0.0] and then
    [rec.data[:] = np.exp(rec.data / (-1 * bandwidth))].  The exponential is the
    real one: it is never 0, where [np.exp] underflows to 0.0 for a distance
    many hundred times the bandwidth. *)
Definition affinity_value (bandwidth : float) (v : R) : float :=
  if Rnonzero v then
    let d := if Rltb v 0 then 0%R else v in
    match bandwidth with
    | NaN => NaN
    | Fin b => Fin (exp (d / (-1 * b)))
    end
  else Fin 0.

Definition map_entries {T U} (f : T -> U) (a : ndarray T) : ndarray U :=
  mk_ndarray (shape a) (map (map f) (rows a)).

(** The value returned by [recurrence_matrix]: a boolean matrix in
    connectivity mode, a float64 matrix otherwise. *)
Inductive recurrence : Type :=
| BoolRec (m : matrix bool)
| FloatRec (m : matrix float).

Definition modes : list string :=
  ["connectivity"; "distance"; "affinity"]%string.

(* ================================================================= *)
(** ** recurrence_matrix *)

Section RecurrenceMatrix.

(** [t = data.shape[0]] after the observation axis has been swapped to the
    front. *)
Variable t : nat.

(** The external nearest-neighbour index:
    [NearestNeighbors(n_neighbors, metric).fit(data).kneighbors_graph(mode)],
    the rows of a [t] by [t] array.  The index is taken to answer: an error
    raised inside scikit-learn (it rejects [n_neighbors < 1], which is what
    [min(t-1, k + 2 * width)] is for a single frame) is outside the model, so
    the properties below speak of the calls on which the index answers. *)
Variable kneighbors_graph : Z -> string -> list (list R).

(** The default number of neighbours:
    [2 * np.ceil(np.sqrt(t - 2 * width + 1))] if [t > 2 * width + 1], else 2. *)
Definition default_k (width : Z) : Z :=
  if (Z.of_nat t >? 2 * width + 1)%Z
  then (2 * ceil_sqrt (Z.of_nat t - 2 * width + 1))%Z
  else 2%Z.

(** "Remove connections within width":
    [for diag in range(-width + 1, width): rec.setdiag(0, diag)]. *)
Definition remove_within_width (width : Z) (rec : ndarray R) : ndarray R :=
  fold_left (fun rec diag => setdiag 0 diag rec) (range (- width + 1) width) rec.

(** "Retain only the top-k links per point": the loop over [range(t)]. *)
Definition retain_top_k (k : Z) (rec : ndarray R) : ndarray R :=
  fold_left
    (fun rec i =>
       mk_ndarray (shape rec)
         (list_update i (prune_row k (nth i (rows rec) [])) (rows rec)))
    (seq 0 t) rec.

(** The self-loops: [rec.setdiag(1)] in connectivity mode and the sentinel
    [rec.setdiag(-1)] in affinity mode. *)
Definition self_links (self : bool) (mode : string) (rec : ndarray R) : ndarray R :=
  if self then
    if String.eqb mode "connectivity" then setdiag 1 0 rec
    else if String.eqb mode "affinity" then setdiag (-1) 0 rec
    else rec
  else rec.

(** The value that the self-loop step leaves on the main diagonal of a matrix
    whose diagonal was zero. *)
Definition self_value (self : bool) (mode : string) : R :=
  if self then
    if String.eqb mode "connectivity" then 1%R
    else if String.eqb mode "affinity" then (-1)%R
    else 0%R
  else 0%R.

(** [if sym: rec = rec.minimum(rec.T)] *)
Definition symmetrize (sym : bool) (rec : ndarray R) : ndarray R :=
  if sym then minimum rec (transpose 0%R rec) else rec.

(** The graph [rec] as it stands after [rec.eliminate_zeros()], before the
    conversion that depends on [mode]: its stored entries are the non-zero
    ones.  [k] is the value of [int(k)]. *)
Definition recurrence_graph (k : Z) (width : Z) (sym : bool) (mode : string)
    (self : bool) : ndarray R :=
  let n_neighbors := Z.min (Z.of_nat t - 1) (k + 2 * width) in
  let kng_mode :=
    if String.eqb mode "affinity" then "distance"%string else mode in
  let rec := mk_ndarray [t; t] (kneighbors_graph n_neighbors kng_mode) in
  let rec := remove_within_width width rec in
  let rec := retain_top_k k rec in
  let rec := self_links self mode rec in
  symmetrize sym rec.

(** The bandwidth of the affinity kernel: the one supplied, or
    [np.nanmedian(rec.max(axis=1).data)]. *)
Definition affinity_bandwidth (bandwidth : option R) (rec : ndarray R) : float :=
  match bandwidth with
  | None => nanmedian (max_axis1_data rec)
  | Some b => Fin b
  end.

(** The number of neighbours in use: the one supplied, or the default. *)
Definition neighbours (k : option Z) (width : Z) : Z :=
  match k with
  | None => default_k width
  | Some k => k
  end.

Definition recurrence_matrix (k : option Z) (width : Z) (sym sparse : bool)
    (mode : string) (bandwidth : option R) (self : bool) : result recurrence :=
  (* data.reshape((t, -1)): numpy cannot infer the second dimension of an
     array without frames *)
  if t =? 0 then Raise ValueError else
  if (width <? 1)%Z || (width >? Z.of_nat t)%Z then Raise ParameterError else
  if negb (existsb (String.eqb mode) modes) then Raise ParameterError else
  let k := neighbours k width in
  do _ <- match bandwidth with
          | Some b => if Rleb b 0 then Raise ParameterError else Ok tt
          | None => Ok tt
          end;
  let rec := recurrence_graph k width sym mode self in
  let output {T} (a : ndarray T) : matrix T :=
    if sparse then Sparse csr a else Dense a in
  if String.eqb mode "connectivity" then
    Ok (BoolRec (output (map_entries Rnonzero rec)))
  else if String.eqb mode "affinity" then
    let bandwidth := affinity_bandwidth bandwidth rec in
    Ok (FloatRec (output (map_entries (affinity_value bandwidth) rec)))
  else
    Ok (FloatRec (output (map_entries Fin rec))).

(** ** What the claims speak about *)

Definition float_nonzero (x : float) : bool :=
  match x with
  | NaN => true
  | Fin r => Rnonzero r
  end.

(** [out[i, j] != 0] *)
Definition nonzero_at (out : recurrence) (i j : nat) : bool :=
  match out with
  | BoolRec m => get false (rows (content m)) i j
  | FloatRec m => float_nonzero (get (Fin 0) (rows (content m)) i j)
  end.

(** No non-zero entry at any [(i, j)] with [|i - j| < width]. *)
Definition empty_within_width (width : Z) (out : recurrence) : Prop :=
  forall i j, i < t -> j < t ->
    (Z.abs (Z.of_nat i - Z.of_nat j) < width)%Z -> nonzero_at out i j = false.

(** The range of the entries in each mode. *)
Definition float_in_range (mode : string) (x : float) : Prop :=
  match x with
  | NaN => False
  | Fin r =>
      if String.eqb mode "affinity" then r = 0%R \/ (0 < r <= 1)%R
      else (0 <= r)%R
  end.

Definition in_mode_range (mode : string) (out : recurrence) : Prop :=
  if String.eqb mode "connectivity" then
    (* a boolean matrix: every entry is 0 or 1 *)
    match out with
    | BoolRec _ => True
    | FloatRec _ => False
    end
  else
    match out with
    | BoolRec _ => False
    | FloatRec m => Forall (Forall (float_in_range mode)) (rows (content m))
    end.

(** [out == out.T] *)
Definition symmetric (out : recurrence) : Prop :=
  match out with
  | BoolRec m => transpose false (content m) = content m
  | FloatRec m => transpose (Fin 0) (content m) = content m
  end.

(** The parameters that pass the checks of [recurrence_matrix]. *)
Definition valid_parameters (width : Z) (mode : string) (bandwidth : option R)
  : Prop :=
  (1 <= width <= Z.of_nat t)%Z /\ In mode modes /\
  match bandwidth with
  | Some b => (0 < b)%R
  | None => True
  end.

(** The self-loop policy populates the main diagonal. *)
Definition populates_diagonal (self : bool) (mode : string) : bool :=
  self && (String.eqb mode "connectivity" || String.eqb mode "affinity").

(** The bandwidth of the affinity kernel, supplied or estimated, is a number. *)
Definition bandwidth_defined (k : option Z) (width : Z) (sym : bool)
    (mode : string) (bandwidth : option R) (self : bool) : Prop :=
  affinity_bandwidth bandwidth
    (recurrence_graph (neighbours k width) width sym mode self) <> NaN.

(** The nearest-neighbour index returns non-negative distances. *)
Definition nonnegative_distances : Prop :=
  forall n m i j, (0 <= get 0 (kneighbors_graph n m) i j)%R.

End RecurrenceMatrix.

(** A neighbour graph of two points at distance 1, whatever the query. *)
Definition two_points : Z -> string -> list (list R) :=
  fun _ _ => [[0; 1]; [1; 0]]%R.

(* ================================================================= *)
(** ** path_enhance *)

(** [np.log2] on a positive real, without rounding. *)
Definition log2 (x : R) : R := (ln x / ln 2)%R.

(** [np.linspace(start, stop, num)] with the end point included. *)
Definition linspace (start stop : R) (num : nat) : list R :=
  let div := (num - 1)%nat in
  let delta := (stop - start)%R in
  map (fun i =>
         if (1 <? num) && (i =? num - 1) then stop
         else if 0 <? div then (INR i * (delta / INR div) + start)%R
         else (INR i * delta + start)%R)
    (seq 0 num).

(** [np.logspace(start, stop, num=num, base=base)] *)
Definition logspace (start stop : R) (num : Z) (base : R) : result (list R) :=
  if (num <? 0)%Z then Raise ValueError
  else Ok (map (Rpower base) (linspace start stop (Z.to_nat num))).

(** [np.maximum(a, b, out=a)]; both operands have the shape of the input of
    the convolution. *)
Definition np_maximum (a b : ndarray R) : ndarray R :=
  mk_ndarray (shape a) (map2 (map2 Rmax) (rows a) (rows b)).

(** [np.clip(a, 0, None, out=a)]; [a] is the accumulator, which is [None] when
    no kernel was applied.  numpy then compares [None] with [0], which Python 3
    rejects with a TypeError. *)
Definition np_clip_min0 (a : option (ndarray R)) : result (option (ndarray R)) :=
  match a with
  | None => Raise TypeError
  | Some a => Ok (Some (map_entries (fun x => Rmax x 0) a))
  end.

(** The slope ratios of the smoothing filters: the default and the check of
    [min_ratio], then
    [np.logspace(np.log2(min_ratio), np.log2(max_ratio), num=n_filters, base=2)]. *)
Definition slope_ratios (max_ratio : R) (min_ratio : option R) (n_filters : Z)
  : result (list R) :=
  do min_ratio <-
    match min_ratio with
    | None =>
        if Req_dec_T max_ratio 0 then Raise ZeroDivisionError
        else Ok (1 / max_ratio)%R
    | Some m => if Rltb max_ratio m then Raise ParameterError else Ok m
    end;
  logspace (log2 min_ratio) (log2 max_ratio) n_filters 2.

Section PathEnhance.

(** Window specifications, kernels and the keyword arguments passed through
    to the convolution are opaque to this module. *)
Context {window kernel kwargs : Type}.

(** [filters.diagonal_filter(window, n, slope=ratio, zero_mean=zero_mean)] *)
Variable diagonal_filter : window -> Z -> R -> bool -> kernel.

(** [scipy.ndimage.convolve(R, kernel, **kwargs)] *)
Variable convolve : ndarray R -> kernel -> kwargs -> ndarray R.

Definition path_enhance (R_ : ndarray R) (n : Z) (win : window) (max_ratio : R)
    (min_ratio : option R) (n_filters : Z) (zero_mean clip : bool) (kw : kwargs)
  : result (option (ndarray R)) :=
  do ratios <- slope_ratios max_ratio min_ratio n_filters;
  let R_smooth :=
    fold_left
      (fun R_smooth ratio =>
         let kernel := diagonal_filter win n ratio zero_mean in
         match R_smooth with
         | None => Some (convolve R_ kernel kw)
         | Some acc => Some (np_maximum acc (convolve R_ kernel kw))
         end)
      ratios None in
  if clip then np_clip_min0 R_smooth else Ok R_smooth.

End PathEnhance.

(** The links of point [i] in a recurrence matrix over [t] points: the
    columns [j != i] with [out[i, j] != 0]. *)
Definition links_of (t : nat) (out : recurrence) (i : nat) : list nat :=
  filter (fun j => negb (j =? i) && nonzero_at out i j) (seq 0 t).

(** The array behind a recurrence matrix has shape [(t, t)], is sparse (csr)
    exactly when asked for, and is boolean exactly in connectivity mode. *)
Definition well_shaped (t : nat) (sparse : bool) (mode : string)
    (out : recurrence) : Prop :=
  match out with
  | BoolRec m =>
      mode = "connectivity"%string /\ is_matrix t t (content m) = true /\
      m = (if sparse then Sparse csr (content m) else Dense (content m))
  | FloatRec m =>
      mode <> "connectivity"%string /\ is_matrix t t (content m) = true /\
      m = (if sparse then Sparse csr (content m) else Dense (content m))
  end.

(** The value on the main diagonal that the docstring of [self] promises. *)
Definition diagonal_entry (out : recurrence) (i : nat) : float + bool :=
  match out with
  | BoolRec m => inr (get false (rows (content m)) i i)
  | FloatRec m => inl (get (Fin 0) (rows (content m)) i i)
  end.

(* ================================================================= *)
(** ** timelag_filter *)

(** The array of a matrix replaced, its kind and storage format kept. *)
Definition with_content {A B} (m : matrix A) (a : ndarray B) : matrix B :=
  match m with
  | Dense _ => Dense a
  | Sparse fmt _ => Sparse fmt a
  end.

(** A function applied to every entry. *)
Definition map_matrix {A B} (g : A -> B) (m : matrix A) : matrix B :=
  with_content m (map_entries g (content m)).

(** Python list indexing [l[i]]: the position it denotes, negative indices
    counting from the end; IndexError outside the list. *)
Definition list_position {T} (l : list T) (i : Z) : result nat :=
  let n := Z.of_nat (length l) in
  let j := if (i <? 0)%Z then (n + i)%Z else i in
  if (j <? 0)%Z || (n <=? j)%Z then Raise IndexError else Ok (Z.to_nat j).

Section TimelagFilter.
Context {A kwargs : Type} (zero : A).

(** The filter to wrap, called as [function( *args, **kwargs)].  The positional
    arguments are arrays; the keyword arguments are opaque. *)
Variable function : list (matrix A) -> kwargs -> result (matrix A).

(** [timelag_filter(function, pad, index)( *args, **kwargs)]: the body of
    [__my_filter]. *)
Definition timelag_filter (pad : bool) (index : Z) (args : list (matrix A))
    (kw : kwargs) : result (matrix A) :=
  do pos <- list_position args index;
  match nth_error args pos with
  | None => Raise IndexError
  | Some data =>
      (* Map the input data into time-lag space *)
      do lag <- recurrence_to_lag zero data pad (-1);
      let args := list_update pos lag args in
      (* Apply the filtering function *)
      do result <- function args kw;
      (* Map back into time-time and return *)
      lag_to_recurrence zero result (-1)
  end.

End TimelagFilter.

(* ================================================================= *)
(** ** agglomerative and subsegment *)

(** [np.diff(l)]: [out[i] = l[i + 1] - l[i]]. *)
Definition np_diff (l : list Z) : list Z :=
  map2 (fun a b => (b - a)%Z) l (tl l).

(** [np.nonzero(l)[0]]: the positions of the non-zero values. *)
Definition np_nonzero (l : list Z) : list nat :=
  filter (fun i => negb (nth i l 0 =? 0)%Z) (seq 0 (length l)).

Section Segmentation.

(** The data to cluster, as the clusterer sees it. *)
Context {features : Type}.

(** The labels of the default clusterer,
    [AgglomerativeClustering(n_clusters=k, connectivity=grid).fit(data).labels_],
    one per frame; sklearn is external and is taken to return its labels (it
    raises on data it cannot cluster, a single frame for one). *)
Variable ward_labels : Z -> features -> list Z.

(** [clusterer.fit(data); clusterer.labels_] for the clusterer in use. *)
Definition cluster_labels (data : features) (k : Z)
    (clusterer : option (features -> list Z)) : list Z :=
  match clusterer with
  | None => ward_labels k data
  | Some fit => fit data
  end.

(** [agglomerative(data, k, clusterer)]: "Find the change points from the
    labels". *)
Definition agglomerative (data : features) (k : Z)
    (clusterer : option (features -> list Z)) : list nat :=
  let labels_ := cluster_labels data k clusterer in
  let boundaries := [0] in
  boundaries ++ map (fun i => 1 + i) (np_nonzero (np_diff labels_)).

(** [data.shape[axis]] *)
Variable frame_count : features -> nat.

(** [data[..., seg_start:seg_end, ...]], the slice along [axis]. *)
Variable frame_slice : features -> nat -> nat -> features.

(** [util.fix_frames(frames, x_min=0, x_max=x_max, pad=True)]; it is defined
    in [librosa/util], outside this file, and is taken as a parameter. *)
Variable fix_frames : list Z -> nat -> result (list nat).

(** [subsegment(data, frames, n_segments)] *)
Definition subsegment (data : features) (frames : list Z) (n_segments : Z)
  : result (list nat) :=
  do frames <- fix_frames frames (frame_count data);
  if (n_segments <? 1)%Z then Raise ParameterError else
  Ok (fold_left
        (fun boundaries '(seg_start, seg_end) =>
           boundaries ++
           map (fun b => seg_start + b)
             (agglomerative (frame_slice data seg_start seg_end)
                (Z.min (Z.of_nat seg_end - Z.of_nat seg_start) n_segments) None))
        (combine (removelast frames) (tl frames)) []).

End Segmentation.

(** A small sparse matrix in coo format, the same in csr format, and a small
    dense one. *)
Definition example_sparse : matrix Z :=
  Sparse coo (mk_ndarray [2; 2] [[1; 0]; [2; 3]]%Z).

Definition example_csr : matrix Z :=
  Sparse csr (mk_ndarray [2; 2] [[1; 0]; [2; 3]]%Z).

Definition example_dense : matrix Z :=
  Dense (mk_ndarray [2; 2] [[0; 0]; [0; 0]]%Z).

(** The 4 by 4 boolean matrix with only (0, 2) and (2, 0) set. *)
Definition example_bool : ndarray bool :=
  mk_ndarray [4; 4]
    [[false; false; true; false];
     [false; false; false; false];
     [true; false; false; false];
     [false; false; false; false]].

Definition example_input : ndarray R :=
  mk_ndarray [1; 2] [[-1; 1]]%R.

(** Stand-ins for the external kernel generator and convolution, used where a
    property is instantiated on a concrete call. *)
Definition unit_filter : unit -> Z -> R -> bool -> unit :=
  fun _ _ _ _ => tt.

Definition identity_convolve : ndarray R -> unit -> unit -> ndarray R :=
  fun a _ _ => a.

(** Stand-ins for the clusterer and for [util.fix_frames] on a
    one-dimensional signal: the clusterer labels every frame with its value,
    and the frames, taken to be sorted and inside the signal, are padded with
    [0] and [x_max]. *)
Definition label_by_value : Z -> list Z -> list Z :=
  fun _ data => data.

Definition signal_slice : list Z -> nat -> nat -> list Z :=
  fun data seg_start seg_end => firstn (seg_end - seg_start) (skipn seg_start data).

Definition pad_frames : list Z -> nat -> result (list nat) :=
  fun frames x_max => Ok ([0] ++ map Z.to_nat frames ++ [x_max]).

Definition example_signal : list Z := [5; 5; 7; 7; 7]%Z.

(** A padded lag matrix of shape (4, 2). *)
Definition example_lag : ndarray Z :=
  mk_ndarray [4; 2] [[1; 2]; [3; 4]; [0; 0]; [0; 0]]%Z.

(* ================================================================= *)
(** * Properties *)

(** ** Lists *)

Lemma list_update_length {T} (i : nat) (x : T) (l : list T) :
  length (list_update i x l) = length l.
Proof.
  revert i; induction l as [|y l IH]; intros [|i]; simpl; auto.
Qed.

Lemma nth_list_update_eq {T} (i : nat) (x d : T) (l : list T) :
  i < length l -> nth i (list_update i x l) d = x.
Proof.
  revert i; induction l as [|y l IH]; intros [|i] H; simpl in *; try lia; auto.
  apply IH; lia.
Qed.

Lemma nth_list_update_neq {T} (i j : nat) (x d : T) (l : list T) :
  i <> j -> nth j (list_update i x l) d = nth j l d.
Proof.
  revert i j; induction l as [|y l IH]; intros [|i] [|j] H; simpl; auto; try lia.
Qed.

Lemma map2_length {T U V} (f : T -> U -> V) (l : list T) (l' : list U) :
  length l = length l' -> length (map2 f l l') = length l.
Proof.
  revert l'; induction l as [|x l IH]; intros [|y l'] H; simpl in *; try lia; auto.
Qed.

Lemma nth_map2 {T U V} (f : T -> U -> V) (l : list T) (l' : list U) i d1 d2 d :
  i < length l -> i < length l' ->
  nth i (map2 f l l') d = f (nth i l d1) (nth i l' d2).
Proof.
  revert l' i; induction l as [|x l IH]; intros [|y l'] [|i] H1 H2;
    simpl in *; try lia; auto.
  apply IH; lia.
Qed.

(** Rotation to the left by [p] positions. *)
Lemma rotate_back {T} (p : nat) (x : list T) :
  p <= length x ->
  let y := skipn p x ++ firstn p x in
  skipn (length x - p) y ++ firstn (length x - p) y = x.
Proof.
  intros Hp y; subst y.
  assert (Hlen : length (skipn p x) = length x - p) by apply length_skipn.
  rewrite skipn_app, firstn_app, Hlen, Nat.sub_diag; simpl.
  rewrite (skipn_all2 (skipn p x)) by lia.
  rewrite (firstn_all2 (skipn p x)) by lia.
  rewrite app_nil_r; simpl.
  apply firstn_skipn.
Qed.

Lemma rotate_full {T} (x : list T) :
  skipn (length x) x ++ firstn (length x) x = x.
Proof.
  rewrite skipn_all, firstn_all; reflexivity.
Qed.

(** ** Arrays *)

Section ArrayFacts.
Context {A : Type} (zero : A).

Lemma is_matrix_spec (r c : nat) (a : ndarray A) :
  is_matrix r c a = true <->
  shape a = [r; c] /\ length (rows a) = r
  /\ Forall (fun row => length row = c) (rows a).
Proof.
  unfold is_matrix.
  destruct (shape a) as [|r' [|c' [|? ?]]]; try (split; [discriminate | intros [H _]; discriminate]).
  rewrite !andb_true_iff, !Nat.eqb_eq, forallb_forall, Forall_forall.
  split.
  - intros [[[-> ->] Hl] Hr]; repeat split; auto.
    intros x Hx; apply Nat.eqb_eq; auto.
  - intros [Hs [Hl Hr]]; inversion Hs; subst; repeat split; auto.
    intros x Hx; apply Nat.eqb_eq; auto.
Qed.

Lemma is_matrix_row (r c : nat) (a : ndarray A) :
  is_matrix r c a = true ->
  forall i, i < r -> length (nth i (rows a) []) = c.
Proof.
  intros H i Hi; apply is_matrix_spec in H; destruct H as (_ & Hl & Hr).
  rewrite Forall_forall in Hr; apply Hr, nth_In; lia.
Qed.

(** Two arrays of the same shape with the same entries are the same array. *)
Lemma matrix_ext (r c : nat) (a b : ndarray A) :
  is_matrix r c a = true -> is_matrix r c b = true ->
  (forall i j, i < r -> j < c -> get zero (rows a) i j = get zero (rows b) i j) ->
  a = b.
Proof.
  intros Ha Hb Hget.
  pose proof (is_matrix_row _ _ _ Ha) as Hra.
  pose proof (is_matrix_row _ _ _ Hb) as Hrb.
  apply is_matrix_spec in Ha, Hb.
  destruct Ha as (Hsa & Hla & _), Hb as (Hsb & Hlb & _).
  destruct a as [sa ra], b as [sb rb]; simpl in *; subst sa sb; f_equal.
  apply (nth_ext _ _ [] []); [lia|].
  intros i Hi.
  apply (nth_ext _ _ zero zero).
  - rewrite Hra, Hrb; lia.
  - intros j Hj; rewrite Hra in Hj by lia; apply Hget; lia.
Qed.

Lemma roll_sparse_length (x : list A) (s : Z) :
  length (roll_sparse x s) = length x.
Proof.
  unfold roll_sparse; rewrite length_app, length_skipn, length_firstn; lia.
Qed.

(** Rolling by [-s] and then by [s] gives back the slice. *)
Lemma roll_sparse_inverse (x : list A) (s : Z) :
  roll_sparse (roll_sparse x (- s)) s = x.
Proof.
  unfold roll_sparse at 1; rewrite roll_sparse_length.
  unfold roll_sparse.
  destruct (Nat.eq_dec (length x) 0) as [Hn|Hn].
  - destruct x; [reflexivity | discriminate].
  - set (n := length x) in *.
    assert (Hpos : (0 < Z.of_nat n)%Z) by lia.
    pose proof (Z.mod_pos_bound s (Z.of_nat n) Hpos) as Hb.
    destruct (Z.eq_dec (s mod Z.of_nat n) 0) as [Hz|Hz].
    + rewrite (Z.mod_opp_l_z s (Z.of_nat n)) by lia.
      rewrite Hz; simpl; rewrite Nat.sub_0_r.
      unfold n; rewrite !rotate_full; reflexivity.
    + rewrite (Z.mod_opp_l_nz s (Z.of_nat n)) by lia.
      set (b := Z.to_nat (s mod Z.of_nat n)).
      assert (Ha : Z.to_nat (Z.of_nat n - s mod Z.of_nat n) = n - b)
        by (unfold b; lia).
      rewrite Ha.
      assert (Hb' : 0 < b < n) by (unfold b; lia).
      replace (n - (n - b)) with b by lia.
      pose proof (rotate_back b x ltac:(fold n; lia)) as Hrot.
      exact Hrot.
Qed.

Lemma nth_get_slice (ax i k : nat) (a : ndarray A) :
  nth k (get_slice zero ax i a) zero =
  if ax =? 0 then get zero (rows a) i k else get zero (rows a) k i.
Proof.
  unfold get_slice, get.
  destruct (ax =? 0); [reflexivity|].
  rewrite <- (map_nth (fun row => nth i row zero) (rows a) [] k).
  destruct i; reflexivity.
Qed.

Lemma get_slice_length (ax i r c : nat) (a : ndarray A) :
  is_matrix r c a = true -> (ax = 0 -> i < r) ->
  length (get_slice zero ax i a) = if ax =? 0 then c else r.
Proof.
  intros H Hi; unfold get_slice.
  destruct (Nat.eqb_spec ax 0) as [->|Hax].
  - eapply is_matrix_row; eauto.
  - rewrite length_map; apply is_matrix_spec in H; tauto.
Qed.

Lemma set_slice_is_matrix (ax i r c : nat) (v : list A) (a : ndarray A) :
  is_matrix r c a = true ->
  length v = (if ax =? 0 then c else r) ->
  is_matrix r c (set_slice ax i v a) = true.
Proof.
  intros H Hv.
  pose proof H as H'.
  apply is_matrix_spec in H; destruct H as (Hs & Hl & Hr).
  apply is_matrix_spec; unfold set_slice; simpl; split; [assumption|].
  destruct (Nat.eqb_spec ax 0) as [->|Hax].
  - split; [rewrite list_update_length; assumption|].
    rewrite Forall_forall in *; intros row Hin.
    destruct (In_nth _ _ [] Hin) as (j & Hj & <-).
    rewrite list_update_length in Hj.
    destruct (Nat.eq_dec i j) as [->|Hij].
    + rewrite nth_list_update_eq by lia; assumption.
    + rewrite nth_list_update_neq by assumption; apply Hr, nth_In; lia.
  - split; [rewrite map2_length; lia|].
    rewrite Forall_forall in *; intros row Hin.
    destruct (In_nth _ _ [] Hin) as (j & Hj & <-).
    rewrite map2_length in Hj by lia.
    rewrite (nth_map2 _ _ _ _ [] zero) by lia.
    rewrite list_update_length; apply Hr, nth_In; lia.
Qed.

Lemma get_set_slice (ax i r c : nat) (v : list A) (a : ndarray A) x y :
  is_matrix r c a = true ->
  length v = (if ax =? 0 then c else r) ->
  x < r -> y < c ->
  get zero (rows (set_slice ax i v a)) x y =
  if ax =? 0
  then (if x =? i then nth y v zero else get zero (rows a) x y)
  else (if y =? i then nth x v zero else get zero (rows a) x y).
Proof.
  intros H Hv Hx Hy.
  pose proof (is_matrix_row _ _ _ H x Hx) as Hrow.
  apply is_matrix_spec in H; destruct H as (Hs & Hl & Hr).
  unfold set_slice, get; simpl.
  destruct (Nat.eqb_spec ax 0) as [->|Hax].
  - destruct (Nat.eqb_spec x i) as [->|Hxi].
    + rewrite nth_list_update_eq by lia; reflexivity.
    + rewrite nth_list_update_neq by auto; reflexivity.
  - rewrite (nth_map2 _ _ _ _ [] zero) by lia.
    destruct (Nat.eqb_spec y i) as [->|Hyi].
    + rewrite nth_list_update_eq by lia; reflexivity.
    + rewrite nth_list_update_neq by auto; reflexivity.
Qed.

End ArrayFacts.

(** ** Loops over the slices of an array *)

Section SliceLoops.
Context {A : Type} (zero : A).
Variables ax r c : nat.

Local Abbreviation dim := (slice_count ax r c).
Local Abbreviation len := (slice_length ax r c).

Lemma get_slice_len (i : nat) (a : ndarray A) :
  is_matrix r c a = true -> i < dim -> length (get_slice zero ax i a) = len.
Proof.
  intros H Hi; apply (get_slice_length zero ax i r c a H).
  intros ->; exact Hi.
Qed.

Lemma get_slice_set_slice_same (i : nat) (v : list A) (a : ndarray A) :
  is_matrix r c a = true -> length v = len -> i < dim ->
  get_slice zero ax i (set_slice ax i v a) = v.
Proof.
  intros H Hv Hi.
  pose proof (set_slice_is_matrix zero ax i r c v a H Hv) as H'.
  apply (nth_ext _ _ zero zero).
  - rewrite get_slice_len by assumption; symmetry; exact Hv.
  - intros k Hk; rewrite get_slice_len in Hk by assumption.
    rewrite nth_get_slice.
    unfold slice_count, slice_length in *; destruct (Nat.eqb_spec ax 0) as [Hax|Hax].
    + rewrite (get_set_slice zero ax i r c) by (rewrite ?Hax; simpl; auto).
      rewrite Hax; simpl; rewrite Nat.eqb_refl; reflexivity.
    + rewrite (get_set_slice zero ax i r c);
        try assumption; try (destruct (Nat.eqb_spec ax 0); [contradiction|assumption]).
      destruct (Nat.eqb_spec ax 0); [contradiction|].
      rewrite Nat.eqb_refl; reflexivity.
Qed.

Lemma get_slice_set_slice_other (i j : nat) (v : list A) (a : ndarray A) :
  is_matrix r c a = true -> length v = len -> j < dim -> i <> j ->
  get_slice zero ax j (set_slice ax i v a) = get_slice zero ax j a.
Proof.
  intros H Hv Hj Hij.
  pose proof (set_slice_is_matrix zero ax i r c v a H Hv) as H'.
  apply (nth_ext _ _ zero zero).
  - rewrite !get_slice_len by assumption; reflexivity.
  - intros k Hk; rewrite get_slice_len in Hk by assumption.
    rewrite !nth_get_slice.
    unfold slice_count, slice_length in *; destruct (Nat.eqb_spec ax 0) as [Hax|Hax].
    + rewrite (get_set_slice zero ax i r c) by (rewrite ?Hax; simpl; auto).
      rewrite Hax; simpl.
      destruct (Nat.eqb_spec j i); [congruence | reflexivity].
    + rewrite (get_set_slice zero ax i r c);
        try assumption; try (destruct (Nat.eqb_spec ax 0); [contradiction|assumption]).
      destruct (Nat.eqb_spec ax 0); [contradiction|].
      destruct (Nat.eqb_spec j i); [congruence | reflexivity].
Qed.

(** Arrays with the same slices are equal. *)
Lemma slice_ext (a b : ndarray A) :
  is_matrix r c a = true -> is_matrix r c b = true ->
  (forall i, i < dim -> get_slice zero ax i a = get_slice zero ax i b) ->
  a = b.
Proof.
  intros Ha Hb Hs.
  apply (matrix_ext zero r c); try assumption.
  intros x y Hx Hy.
  unfold slice_count in *; destruct (Nat.eqb_spec ax 0) as [Hax|Hax].
  - pose proof (nth_get_slice zero ax x y a) as E1.
    pose proof (nth_get_slice zero ax x y b) as E2.
    rewrite Hax in E1, E2; simpl in E1, E2.
    rewrite <- E1, <- E2, <- Hax, (Hs x Hx); reflexivity.
  - pose proof (nth_get_slice zero ax y x a) as E1.
    pose proof (nth_get_slice zero ax y x b) as E2.
    destruct (Nat.eqb_spec ax 0); [contradiction|].
    rewrite <- E1, <- E2, (Hs y Hy); reflexivity.
Qed.

(** A loop that rewrites slice [i] from its own old contents, for each [i]
    of a duplicate-free list, acts on every slice independently. *)
Lemma slice_loop (G : nat -> list A -> list A) :
  (forall i v, i < dim -> length v = len -> length (G i v) = len) ->
  forall (idx : list nat) (acc : ndarray A),
    NoDup idx -> (forall i, In i idx -> i < dim) ->
    is_matrix r c acc = true ->
    let res :=
      fold_left
        (fun acc i => set_slice ax i (G i (get_slice zero ax i acc)) acc)
        idx acc in
    is_matrix r c res = true /\
    forall i, i < dim ->
      get_slice zero ax i res =
      if in_dec Nat.eq_dec i idx then G i (get_slice zero ax i acc)
      else get_slice zero ax i acc.
Proof.
  intros HG idx; induction idx as [|j idx IH]; intros acc Hnd Hin Hacc; simpl.
  - split; [assumption | reflexivity].
  - inversion Hnd as [|? ? Hnotin Hnd']; subst.
    assert (Hj : j < dim) by (apply Hin; left; reflexivity).
    assert (Hlen : length (G j (get_slice zero ax j acc)) = len)
      by (apply HG; [assumption | apply get_slice_len; assumption]).
    set (acc' := set_slice ax j (G j (get_slice zero ax j acc)) acc).
    assert (Hacc' : is_matrix r c acc' = true)
      by (apply (set_slice_is_matrix zero); assumption).
    destruct (IH acc' Hnd' (fun i Hi => Hin i (or_intror Hi)) Hacc') as [Hres Hsl].
    split; [exact Hres|].
    intros i Hi; rewrite (Hsl i Hi).
    destruct (Nat.eq_dec j i) as [->|Hji].
    + destruct (in_dec Nat.eq_dec i idx) as [Hc|_]; [contradiction|].
      apply get_slice_set_slice_same; assumption.
    + assert (E : get_slice zero ax i acc' = get_slice zero ax i acc)
        by (apply get_slice_set_slice_other; assumption).
      rewrite E.
      destruct (in_dec Nat.eq_dec i idx); reflexivity.
Qed.

(** The loop of [recurrence_to_lag] followed by the loop of
    [lag_to_recurrence] restores the array. *)
Lemma roll_unroll (t : nat) (p : ndarray A) :
  is_matrix r c p = true -> t <= dim ->
  let lag :=
    fold_left
      (fun lag i =>
         set_slice ax i (roll_sparse (get_slice zero ax i lag) (- Z.of_nat i)) lag)
      (seq 1 (t - 1)) p in
  fold_left
    (fun rec i =>
       set_slice ax i (roll_sparse (get_slice zero ax i lag) (Z.of_nat i)) rec)
    (seq 1 (t - 1)) lag = p.
Proof.
  intros Hp Ht lag.
  assert (Hnd : NoDup (seq 1 (t - 1))) by apply seq_NoDup.
  assert (Hin : forall i, In i (seq 1 (t - 1)) -> i < dim)
    by (intros i Hi; apply in_seq in Hi; lia).
  destruct (slice_loop (fun i v => roll_sparse v (- Z.of_nat i))
              (fun i v _ Hv => eq_trans (roll_sparse_length v _) Hv)
              (seq 1 (t - 1)) p Hnd Hin Hp) as [Hlag Hsl1].
  fold lag in Hlag, Hsl1.
  destruct (slice_loop (fun i _ => roll_sparse (get_slice zero ax i lag) (Z.of_nat i))
              (fun i v Hi _ =>
                 eq_trans (roll_sparse_length _ _) (get_slice_len i lag Hlag Hi))
              (seq 1 (t - 1)) lag Hnd Hin Hlag) as [Hrec Hsl2].
  apply slice_ext; try assumption.
  intros i Hi; rewrite (Hsl2 i Hi), (Hsl1 i Hi).
  destruct (in_dec Nat.eq_dec i (seq 1 (t - 1))); [|reflexivity].
  apply roll_sparse_inverse.
Qed.

End SliceLoops.

(** ** The time-lag transform and its inverse *)

Section LagRoundTrip.
Context {A : Type} (zero : A).

Lemma np_pad_is_matrix (ax t : nat) (a : ndarray A) :
  is_matrix t t a = true -> ax < 2 ->
  is_matrix (lag_rows ax t) (lag_cols ax t) (np_pad zero (1 - ax) t a) = true.
Proof.
  intros H Hax; apply is_matrix_spec in H; destruct H as (Hs & Hl & Hr).
  apply is_matrix_spec; unfold np_pad, lag_rows, lag_cols; rewrite Hs.
  destruct ax as [|[|ax]]; [| |lia]; simpl.
  - repeat split; [rewrite length_map; assumption|].
    rewrite Forall_forall in *; intros row Hin.
    apply in_map_iff in Hin; destruct Hin as (row' & <- & Hin).
    rewrite length_app, repeat_length, (Hr _ Hin); reflexivity.
  - repeat split; [rewrite length_app, repeat_length; lia|].
    apply Forall_app; split; [assumption|].
    apply Forall_forall; intros row Hin.
    apply repeat_spec in Hin; subst; apply repeat_length.
Qed.

Lemma kron_unit_np_pad (ax t : nat) (a : ndarray A) :
  shape a = [t; t] -> ax < 2 -> kron_unit zero ax a = np_pad zero (1 - ax) t a.
Proof.
  intros Hs Hax; unfold kron_unit, np_pad; rewrite Hs.
  destruct ax as [|[|ax]]; [| |lia]; simpl; rewrite Nat.add_0_r; reflexivity.
Qed.

Lemma slice_upto_np_pad (ax t : nat) (a : ndarray A) :
  is_matrix t t a = true -> ax < 2 ->
  slice_upto (1 - ax) t (np_pad zero (1 - ax) t a) = a.
Proof.
  intros H Hax; apply is_matrix_spec in H; destruct H as (Hs & Hl & Hr).
  destruct a as [sh rw]; simpl in *; subst sh.
  unfold np_pad, slice_upto; simpl.
  destruct ax as [|[|ax]]; [| |lia]; simpl.
  - rewrite Nat.min_l by lia; f_equal.
    rewrite map_map.
    rewrite <- (map_id rw) at 2.
    apply map_ext_in; intros row Hin.
    rewrite Forall_forall in Hr.
    rewrite firstn_app, (Hr _ Hin), Nat.sub_diag; simpl.
    rewrite app_nil_r; apply firstn_all2; rewrite (Hr _ Hin); lia.
  - rewrite Nat.min_l by lia; f_equal.
    rewrite firstn_app, Hl, Nat.sub_diag; simpl.
    rewrite app_nil_r; apply firstn_all2; lia.
Qed.

Lemma to_lag_loop_is_matrix (ax r c t : nat) (p : ndarray A) :
  is_matrix r c p = true -> t <= slice_count ax r c ->
  is_matrix r c
    (fold_left
       (fun lag i =>
          set_slice ax i (roll_sparse (get_slice zero ax i lag) (- Z.of_nat i)) lag)
       (seq 1 (t - 1)) p) = true.
Proof.
  intros Hp Ht.
  apply (slice_loop zero ax r c (fun i v => roll_sparse v (- Z.of_nat i))).
  - intros i v _ Hv; rewrite roll_sparse_length; exact Hv.
  - apply seq_NoDup.
  - intros i Hi; apply in_seq in Hi; lia.
  - exact Hp.
Qed.

End LagRoundTrip.

Section LagTheorems.
Context {A : Type} (zero : A).

Lemma round_trip_content (ax t : nat) (a : ndarray A) :
  is_matrix t t a = true -> ax < 2 ->
  let p := np_pad zero (1 - ax) t a in
  let lag :=
    fold_left
      (fun lag i =>
         set_slice ax i (roll_sparse (get_slice zero ax i lag) (- Z.of_nat i)) lag)
      (seq 1 (t - 1)) p in
  shape lag = [lag_rows ax t; lag_cols ax t] /\
  slice_upto (1 - ax) t
    (fold_left
       (fun rec i =>
          set_slice ax i (roll_sparse (get_slice zero ax i lag) (Z.of_nat i)) rec)
       (seq 1 (t - 1)) lag) = a.
Proof.
  intros Ha Hax p lag.
  pose proof (np_pad_is_matrix zero ax t a Ha Hax) as Hp; fold p in Hp.
  assert (Ht : t <= slice_count ax (lag_rows ax t) (lag_cols ax t))
    by (unfold slice_count, lag_rows, lag_cols; destruct (ax =? 0); lia).
  pose proof (to_lag_loop_is_matrix zero ax _ _ t p Hp Ht) as Hlag; fold lag in Hlag.
  split.
  - apply is_matrix_spec in Hlag; tauto.
  - pose proof (roll_unroll zero ax _ _ t p Hp Ht) as E; simpl in E; fold lag in E.
    rewrite E; apply slice_upto_np_pad; assumption.
Qed.

End LagTheorems.

(** ** Tabulated arrays *)

Section TabulateFacts.
Context {A : Type} (zero : A).

Lemma tabulate_is_matrix (r c : nat) (f : nat -> nat -> A) :
  is_matrix r c (mk_ndarray [r; c] (tabulate r c f)) = true.
Proof.
  apply is_matrix_spec; unfold tabulate; simpl; repeat split.
  - rewrite length_map, length_seq; reflexivity.
  - apply Forall_forall; intros row Hin.
    apply in_map_iff in Hin; destruct Hin as (i & <- & _).
    rewrite length_map, length_seq; reflexivity.
Qed.

Lemma get_tabulate (r c : nat) (f : nat -> nat -> A) (i j : nat) :
  i < r -> j < c -> get zero (tabulate r c f) i j = f i j.
Proof.
  intros Hi Hj; unfold get, tabulate.
  rewrite (nth_indep _ [] (map (f 0) (seq 0 c)))
    by (rewrite length_map, length_seq; exact Hi).
  rewrite (map_nth (fun i => map (f i) (seq 0 c)) (seq 0 r) 0 i).
  rewrite seq_nth by exact Hi; simpl.
  rewrite (nth_indep _ zero (f i 0))
    by (rewrite length_map, length_seq; exact Hj).
  rewrite (map_nth (f i) (seq 0 c) 0 j), seq_nth by exact Hj; reflexivity.
Qed.

Lemma tabulate_ext (r c : nat) (f g : nat -> nat -> A) :
  (forall i j, i < r -> j < c -> f i j = g i j) ->
  tabulate r c f = tabulate r c g.
Proof.
  intros H; unfold tabulate.
  apply map_ext_in; intros i Hi; apply in_seq in Hi.
  apply map_ext_in; intros j Hj; apply in_seq in Hj.
  apply H; lia.
Qed.

Lemma get_transpose (r c : nat) (a : ndarray A) (i j : nat) :
  shape a = [r; c] -> i < c -> j < r ->
  get zero (rows (transpose zero a)) i j = get zero (rows a) j i.
Proof.
  intros Hs Hi Hj; unfold transpose; rewrite Hs; simpl.
  rewrite get_tabulate by assumption; reflexivity.
Qed.

End TabulateFacts.

Lemma map_tabulate {A B} (g : A -> B) (r c : nat) (f : nat -> nat -> A) :
  map (map g) (tabulate r c f) = tabulate r c (fun i j => g (f i j)).
Proof.
  unfold tabulate; rewrite map_map.
  apply map_ext; intros i; rewrite map_map; reflexivity.
Qed.

Lemma get_map_entries {A B} (za : A) (zb : B) (g : A -> B) (r c : nat)
    (a : ndarray A) (i j : nat) :
  is_matrix r c a = true -> i < r -> j < c ->
  get zb (rows (map_entries g a)) i j = g (get za (rows a) i j).
Proof.
  intros H Hi Hj.
  pose proof (is_matrix_row r c a H i Hi) as Hrow.
  apply is_matrix_spec in H; destruct H as (_ & Hl & _).
  unfold map_entries, get; simpl.
  rewrite (nth_indep _ [] (map g [])) by (rewrite length_map; lia).
  rewrite (map_nth (map g) (rows a) [] i).
  rewrite (nth_indep _ zb (g za)) by (rewrite length_map; lia).
  apply map_nth.
Qed.

Lemma tabulate_rows (r c : nat) (a : ndarray R) :
  is_matrix r c a = true ->
  a = mk_ndarray [r; c] (tabulate r c (get 0%R (rows a))).
Proof.
  intros H; apply (matrix_ext 0%R r c); [assumption | apply tabulate_is_matrix |].
  intros i j Hi Hj; simpl; rewrite get_tabulate by assumption; reflexivity.
Qed.

(** ** The stages of recurrence_matrix *)

Lemma in_range (lo hi z : Z) : In z (range lo hi) <-> (lo <= z < hi)%Z.
Proof.
  unfold range; rewrite in_map_iff; split.
  - intros (n & <- & Hn); apply in_seq in Hn; lia.
  - intros H; exists (Z.to_nat (z - lo)); split; [lia|].
    apply in_seq; lia.
Qed.

Lemma setdiag_is_matrix (v : R) (d : Z) (r c : nat) (a : ndarray R) :
  shape a = [r; c] -> is_matrix r c (setdiag v d a) = true.
Proof.
  intros Hs; unfold setdiag; rewrite Hs; apply tabulate_is_matrix.
Qed.

Lemma get_setdiag (v : R) (d : Z) (r c : nat) (a : ndarray R) (i j : nat) :
  shape a = [r; c] -> i < r -> j < c ->
  get 0%R (rows (setdiag v d a)) i j =
  if (Z.of_nat j - Z.of_nat i =? d)%Z then v else get 0%R (rows a) i j.
Proof.
  intros Hs Hi Hj; unfold setdiag; rewrite Hs; simpl.
  rewrite get_tabulate by assumption; reflexivity.
Qed.

Lemma is_matrix_shape {A} (r c : nat) (a : ndarray A) :
  is_matrix r c a = true -> shape a = [r; c].
Proof.
  intros H; apply is_matrix_spec in H; tauto.
Qed.

Lemma fold_setdiag (r c : nat) (ds : list Z) (a : ndarray R) :
  shape a = [r; c] ->
  let res := fold_left (fun rec diag => setdiag 0 diag rec) ds a in
  shape res = [r; c] /\
  (ds <> [] -> is_matrix r c res = true) /\
  forall i j, i < r -> j < c ->
    get 0%R (rows res) i j =
    if existsb (Z.eqb (Z.of_nat j - Z.of_nat i)) ds then 0%R
    else get 0%R (rows a) i j.
Proof.
  revert a; induction ds as [|d ds IH]; intros a Hs; simpl.
  - repeat split; [assumption | congruence].
  - pose proof (setdiag_is_matrix 0 d r c a Hs) as Hm.
    destruct (IH (setdiag 0 d a) (is_matrix_shape _ _ _ Hm)) as (Hs' & Hne & Hg).
    repeat split; [exact Hs' | |].
    + intros _; destruct ds as [|d' ds]; [exact Hm | apply Hne; discriminate].
    + intros i j Hi Hj; rewrite (Hg i j Hi Hj), (get_setdiag 0 d r c a i j Hs Hi Hj).
      destruct (Z.of_nat j - Z.of_nat i =? d)%Z; simpl; [|reflexivity].
      destruct (existsb _ ds); reflexivity.
Qed.

(** After the exclusion band has been removed, the entries within [width] of
    the diagonal are zero and the others are those of the neighbour graph. *)
Lemma remove_within_width_spec (t : nat) (width : Z) (g : list (list R)) :
  (1 <= width)%Z ->
  let res := remove_within_width width (mk_ndarray [t; t] g) in
  is_matrix t t res = true /\
  forall i j, i < t -> j < t ->
    get 0%R (rows res) i j =
    if (Z.abs (Z.of_nat i - Z.of_nat j) <? width)%Z then 0%R else get 0%R g i j.
Proof.
  intros Hw; unfold remove_within_width; cbv zeta.
  destruct (fold_setdiag t t (range (- width + 1) width) (mk_ndarray [t; t] g) eq_refl)
    as (_ & Hm & Hg).
  split.
  - apply Hm; intros Hnil.
    assert (Hin : In (- width + 1)%Z (range (- width + 1) width))
      by (apply in_range; lia).
    rewrite Hnil in Hin; exact Hin.
  - intros i j Hi Hj; rewrite (Hg i j Hi Hj); simpl rows.
    destruct (Z.ltb_spec (Z.abs (Z.of_nat i - Z.of_nat j)) width) as [Hlt|Hge];
      destruct (existsb _ _) eqn:Hex; try reflexivity; exfalso.
    + assert (Hin : In (Z.of_nat j - Z.of_nat i)%Z (range (- width + 1) width))
        by (apply in_range; lia).
      assert (Hex' : existsb (Z.eqb (Z.of_nat j - Z.of_nat i))
                       (range (- width + 1) width) = true)
        by (apply existsb_exists; eexists; split; [exact Hin | apply Z.eqb_refl]).
      congruence.
    + apply existsb_exists in Hex; destruct Hex as (z & Hin & Hz).
      apply Z.eqb_eq in Hz; subst z; apply in_range in Hin; lia.
Qed.

Lemma prune_row_length (k : Z) (row : list R) :
  length (prune_row k row) = length row.
Proof.
  unfold prune_row; rewrite length_map, length_seq; reflexivity.
Qed.

(** Pruning only ever squashes entries to zero. *)
Lemma nth_prune_row (k : Z) (row : list R) (j : nat) :
  nth j (prune_row k row) 0%R = nth j row 0%R \/ nth j (prune_row k row) 0%R = 0%R.
Proof.
  destruct (Nat.lt_ge_cases j (length row)) as [Hj|Hj].
  - unfold prune_row.
    set (f := fun j => if existsb _ _ then 0%R else nth j row 0%R).
    rewrite (nth_indep _ 0%R (f 0)) by (rewrite length_map, length_seq; exact Hj).
    rewrite (map_nth f (seq 0 (length row)) 0 j), seq_nth by exact Hj; simpl.
    unfold f; destruct (existsb _ _); auto.
  - right; apply nth_overflow; rewrite prune_row_length; exact Hj.
Qed.

Lemma retain_top_k_spec (t : nat) (k : Z) (a : ndarray R) :
  is_matrix t t a = true ->
  is_matrix t t (retain_top_k t k a) = true /\
  forall i j,
    get 0%R (rows (retain_top_k t k a)) i j = get 0%R (rows a) i j \/
    get 0%R (rows (retain_top_k t k a)) i j = 0%R.
Proof.
  unfold retain_top_k.
  assert (Hall : forall i, In i (seq 0 t) -> i < t)
    by (intros i Hi; apply in_seq in Hi; lia).
  revert Hall; generalize (seq 0 t) as idx.
  intros idx; revert a; induction idx as [|x idx IH]; intros a Hall Ha; simpl.
  - split; [assumption | auto].
  - set (a' := mk_ndarray (shape a)
                 (list_update x (prune_row k (nth x (rows a) [])) (rows a))).
    assert (Hx : x < t) by (apply Hall; left; reflexivity).
    assert (Ha' : is_matrix t t a' = true).
    { pose proof (is_matrix_row _ _ _ Ha) as Hrow.
      apply is_matrix_spec in Ha; destruct Ha as (Hs & Hl & Hr).
      apply is_matrix_spec; unfold a'; simpl; repeat split;
        [assumption | rewrite list_update_length; assumption |].
      apply Forall_forall; intros row Hin.
      destruct (In_nth _ _ [] Hin) as (y & Hy & <-).
      rewrite list_update_length in Hy.
      destruct (Nat.eq_dec x y) as [->|Hxy].
      - rewrite nth_list_update_eq by lia.
        rewrite prune_row_length; apply Hrow; lia.
      - rewrite nth_list_update_neq by assumption; apply Hrow; lia. }
    destruct (IH a' (fun i Hi => Hall i (or_intror Hi)) Ha') as [Hm Hg].
    split; [exact Hm|].
    intros i j.
    assert (Hstep : get 0%R (rows a') i j = get 0%R (rows a) i j \/
                    get 0%R (rows a') i j = 0%R).
    { unfold a', get; simpl.
      destruct (Nat.eq_dec x i) as [->|Hxi].
      - apply is_matrix_spec in Ha; destruct Ha as (_ & Hl & _).
        rewrite nth_list_update_eq by lia; apply nth_prune_row.
      - rewrite nth_list_update_neq by assumption; auto. }
    destruct (Hg i j) as [E|E]; rewrite E; auto.
Qed.

Section GraphFacts.
Variable t : nat.
Variable kneighbors_graph : Z -> string -> list (list R).

Lemma self_links_spec (self : bool) (mode : string) (a : ndarray R) :
  is_matrix t t a = true ->
  (forall i, i < t -> get 0%R (rows a) i i = 0%R) ->
  is_matrix t t (self_links self mode a) = true /\
  forall i j, i < t -> j < t ->
    get 0%R (rows (self_links self mode a)) i j =
    if i =? j then self_value self mode else get 0%R (rows a) i j.
Proof.
  intros Ha Hdiag.
  pose proof (is_matrix_shape _ _ _ Ha) as Hs.
  assert (Hset : forall v,
             is_matrix t t (setdiag v 0 a) = true /\
             forall i j, i < t -> j < t ->
               get 0%R (rows (setdiag v 0 a)) i j =
               if i =? j then v else get 0%R (rows a) i j).
  { intros v; split; [apply setdiag_is_matrix; exact Hs|].
    intros i j Hi Hj; rewrite (get_setdiag v 0 t t a i j Hs Hi Hj).
    destruct (Nat.eqb_spec i j) as [->|Hij].
    - rewrite Z.sub_diag; reflexivity.
    - destruct (Z.eqb_spec (Z.of_nat j - Z.of_nat i) 0); [lia | reflexivity]. }
  assert (Hid : is_matrix t t a = true /\
                forall i j, i < t -> j < t ->
                  get 0%R (rows a) i j =
                  if i =? j then 0%R else get 0%R (rows a) i j).
  { split; [exact Ha|]; intros i j Hi Hj.
    destruct (Nat.eqb_spec i j) as [->|]; [apply Hdiag; exact Hi | reflexivity]. }
  unfold self_links, self_value.
  destruct self; [|exact Hid].
  destruct (String.eqb mode "connectivity"); [apply Hset|].
  destruct (String.eqb mode "affinity"); [apply Hset | exact Hid].
Qed.

Lemma symmetrize_spec (sym : bool) (a : ndarray R) :
  is_matrix t t a = true ->
  is_matrix t t (symmetrize sym a) = true /\
  forall i j, i < t -> j < t ->
    get 0%R (rows (symmetrize sym a)) i j =
    if sym then Rmin (get 0%R (rows a) i j) (get 0%R (rows a) j i)
    else get 0%R (rows a) i j.
Proof.
  intros Ha; pose proof (is_matrix_shape _ _ _ Ha) as Hs.
  unfold symmetrize, minimum; destruct sym; [|split; [exact Ha | reflexivity]].
  rewrite Hs; split; [apply tabulate_is_matrix|].
  intros i j Hi Hj; simpl.
  rewrite get_tabulate by assumption.
  rewrite (get_transpose 0%R t t a i j Hs Hi Hj); reflexivity.
Qed.

(** The entries of the graph: the diagonal carries the self-loop value, the
    rest of the exclusion band is empty, and every other entry is either zero
    or comes from the neighbour graph. *)
Lemma recurrence_graph_spec (k width : Z) (sym : bool) (mode : string) (self : bool) :
  (1 <= width)%Z ->
  let g := recurrence_graph t kneighbors_graph k width sym mode self in
  is_matrix t t g = true /\
  forall i j, i < t -> j < t ->
    (i = j -> get 0%R (rows g) i j = self_value self mode) /\
    (i <> j -> (Z.abs (Z.of_nat i - Z.of_nat j) < width)%Z ->
     get 0%R (rows g) i j = 0%R) /\
    (i <> j -> nonnegative_distances kneighbors_graph ->
     (0 <= get 0%R (rows g) i j)%R) /\
    (sym = true -> get 0%R (rows g) i j = get 0%R (rows g) j i).
Proof.
  intros Hw g; subst g; unfold recurrence_graph.
  set (n := Z.min (Z.of_nat t - 1) (k + 2 * width)).
  set (km := if String.eqb mode "affinity" then "distance"%string else mode).
  destruct (remove_within_width_spec t width (kneighbors_graph n km) Hw) as [H1 G1].
  set (r1 := remove_within_width width (mk_ndarray [t; t] (kneighbors_graph n km))) in *.
  destruct (retain_top_k_spec t k r1 H1) as [H2 G2].
  set (r2 := retain_top_k t k r1) in *.
  assert (D2 : forall i, i < t -> get 0%R (rows r2) i i = 0%R).
  { intros i Hi; destruct (G2 i i) as [E|E]; [|exact E].
    rewrite E, (G1 i i Hi Hi), Z.sub_diag; simpl.
    destruct (Z.ltb_spec 0 width); [reflexivity | lia]. }
  destruct (self_links_spec self mode r2 H2 D2) as [H3 G3].
  set (r3 := self_links self mode r2) in *.
  assert (B3 : forall i j, i < t -> j < t -> i <> j ->
                 (Z.abs (Z.of_nat i - Z.of_nat j) < width)%Z ->
                 get 0%R (rows r3) i j = 0%R).
  { intros i j Hi Hj Hij Hb; rewrite (G3 i j Hi Hj).
    destruct (Nat.eqb_spec i j); [contradiction|].
    destruct (G2 i j) as [E|E]; [|exact E].
    rewrite E, (G1 i j Hi Hj).
    destruct (Z.ltb_spec (Z.abs (Z.of_nat i - Z.of_nat j)) width); [reflexivity | lia]. }
  assert (N3 : forall i j, i < t -> j < t -> i <> j ->
                 nonnegative_distances kneighbors_graph ->
                 (0 <= get 0%R (rows r3) i j)%R).
  { intros i j Hi Hj Hij Hnn; rewrite (G3 i j Hi Hj).
    destruct (Nat.eqb_spec i j); [contradiction|].
    destruct (G2 i j) as [E|E]; rewrite E; [|lra].
    rewrite (G1 i j Hi Hj).
    destruct (Z.abs (Z.of_nat i - Z.of_nat j) <? width)%Z; [lra | apply Hnn]. }
  destruct (symmetrize_spec sym r3 H3) as [H4 G4].
  split; [exact H4|].
  intros i j Hi Hj; rewrite (G4 i j Hi Hj), (G4 j i Hj Hi).
  repeat split.
  - intros <-; rewrite (G3 i i Hi Hi), Nat.eqb_refl.
    destruct sym; [apply Rmin_left; lra | reflexivity].
  - intros Hij Hb.
    assert (Hb' : (Z.abs (Z.of_nat j - Z.of_nat i) < width)%Z) by lia.
    rewrite (B3 i j Hi Hj Hij Hb).
    rewrite (B3 j i Hj Hi (not_eq_sym Hij) Hb').
    destruct sym; [apply Rmin_left; lra | reflexivity].
  - intros Hij Hnn.
    pose proof (N3 i j Hi Hj Hij Hnn).
    pose proof (N3 j i Hj Hi (not_eq_sym Hij) Hnn).
    destruct sym; [apply Rmin_glb; assumption | assumption].
  - intros ->; apply Rmin_comm.
Qed.

End GraphFacts.

(** ** Real-valued tests and sorting *)

Lemma Rnonzero_true (x : R) : x <> 0%R -> Rnonzero x = true.
Proof. intros H; unfold Rnonzero; destruct (Req_dec_T x 0); [contradiction | reflexivity]. Qed.

Lemma Rnonzero_0 : Rnonzero 0 = false.
Proof. unfold Rnonzero; destruct (Req_dec_T 0 0); [reflexivity | contradiction]. Qed.

Lemma Rnonzero_false (x : R) : Rnonzero x = false -> x = 0%R.
Proof. unfold Rnonzero; destruct (Req_dec_T x 0); [auto | discriminate]. Qed.

Lemma Rltb_true (x y : R) : (x < y)%R -> Rltb x y = true.
Proof. intros H; unfold Rltb; destruct (Rlt_dec x y); [reflexivity | contradiction]. Qed.

Lemma Rltb_false (x y : R) : (y <= x)%R -> Rltb x y = false.
Proof. intros H; unfold Rltb; destruct (Rlt_dec x y); [lra | reflexivity]. Qed.

Lemma Rleb_true (x y : R) : (x <= y)%R -> Rleb x y = true.
Proof. intros H; unfold Rleb; destruct (Rle_dec x y); [reflexivity | contradiction]. Qed.

Lemma Rleb_false (x y : R) : (y < x)%R -> Rleb x y = false.
Proof. intros H; unfold Rleb; destruct (Rle_dec x y); [lra | reflexivity]. Qed.

Lemma in_insert_by {T} (le : T -> T -> bool) (x y : T) (l : list T) :
  In y (insert_by le x l) <-> y = x \/ In y l.
Proof.
  induction l as [|z l IH]; simpl.
  - intuition.
  - destruct (le x z); simpl; [intuition|].
    rewrite IH; intuition.
Qed.

Lemma in_sort_by {T} (le : T -> T -> bool) (y : T) (l : list T) :
  In y (sort_by le l) <-> In y l.
Proof.
  induction l as [|x l IH]; simpl; [tauto|].
  rewrite in_insert_by, IH; intuition.
Qed.

Lemma insert_by_length {T} (le : T -> T -> bool) (x : T) (l : list T) :
  length (insert_by le x l) = S (length l).
Proof.
  induction l as [|z l IH]; simpl; [reflexivity|].
  destruct (le x z); simpl; [reflexivity | rewrite IH; reflexivity].
Qed.

Lemma sort_by_length {T} (le : T -> T -> bool) (l : list T) :
  length (sort_by le l) = length l.
Proof.
  induction l as [|x l IH]; simpl; [reflexivity|].
  rewrite insert_by_length, IH; reflexivity.
Qed.

(** The median of positive numbers is positive. *)
Lemma nanmedian_positive (l : list R) (b : R) :
  (forall x, In x l -> (0 < x)%R) -> nanmedian l = Fin b -> (0 < b)%R.
Proof.
  intros Hpos; unfold nanmedian.
  destruct l as [|x0 l0]; [discriminate|].
  set (l := x0 :: l0) in *.
  set (s := sort_by Rleb l).
  assert (Hn : 0 < length s) by (unfold s; rewrite sort_by_length; simpl; lia).
  assert (Hnth : forall i, i < length s -> (0 < nth i s 0)%R).
  { intros i Hi; apply Hpos, (in_sort_by Rleb), nth_In; exact Hi. }
  assert (H2 : length s / 2 < length s) by (apply Nat.div_lt; lia).
  destruct (Nat.even (length s)); intros E; injection E as <-.
  - pose proof (Hnth (length s / 2 - 1) ltac:(lia)).
    pose proof (Hnth (length s / 2) H2).
    change (fst (Nat.divmod (length s) 1 0 1)) with (length s / 2).
    lra.
  - apply Hnth; exact H2.
Qed.

Lemma fold_left_Rmax_ge (l : list R) (x : R) :
  (x <= fold_left Rmax l x)%R /\
  forall y, In y l -> (y <= fold_left Rmax l x)%R.
Proof.
  revert x; induction l as [|z l IH]; intros x; simpl.
  - split; [lra | tauto].
  - destruct (IH (Rmax x z)) as [H1 H2].
    pose proof (Rmax_l x z); pose proof (Rmax_r x z).
    split; [lra|].
    intros y [->|Hy]; [lra | apply H2; exact Hy].
Qed.

Lemma row_max_ge (row : list R) (y : R) : In y row -> (y <= row_max row)%R.
Proof.
  destruct row as [|x l]; simpl; [tauto|].
  destruct (fold_left_Rmax_ge l x) as [H1 H2].
  intros [<-|Hy]; [exact H1 | apply H2; exact Hy].
Qed.

(** ** recurrence_matrix *)

Section RecurrenceTheorems.
Variable t : nat.
Variable kneighbors_graph : Z -> string -> list (list R).

Lemma mode_check (mode : string) :
  existsb (String.eqb mode) modes = true <-> In mode modes.
Proof.
  rewrite existsb_exists; split.
  - intros (m & Hin & Hm); apply String.eqb_eq in Hm; subst; exact Hin.
  - intros Hin; exists mode; split; [exact Hin | apply String.eqb_refl].
Qed.

(** With parameters that pass the checks, [recurrence_matrix] returns the
    conversion of the graph that belongs to [mode]. *)
Lemma recurrence_matrix_valid (k : option Z) (width : Z) (sym sparse : bool)
    (mode : string) (bandwidth : option R) (self : bool) :
  valid_parameters t width mode bandwidth ->
  let g :=
    recurrence_graph t kneighbors_graph (neighbours t k width) width sym mode self in
  recurrence_matrix t kneighbors_graph k width sym sparse mode bandwidth self =
  if String.eqb mode "connectivity" then
    Ok (BoolRec (if sparse then Sparse csr (map_entries Rnonzero g)
                 else Dense (map_entries Rnonzero g)))
  else if String.eqb mode "affinity" then
    Ok (FloatRec
          (if sparse
           then Sparse csr
                  (map_entries (affinity_value (affinity_bandwidth bandwidth g)) g)
           else Dense
                  (map_entries (affinity_value (affinity_bandwidth bandwidth g)) g)))
  else
    Ok (FloatRec (if sparse then Sparse csr (map_entries Fin g)
                  else Dense (map_entries Fin g))).
Proof.
  intros (Hw & Hmode & Hbw) g; unfold recurrence_matrix.
  replace (t =? 0) with false by (symmetry; apply Nat.eqb_neq; lia).
  replace (width <? 1)%Z with false by (symmetry; apply Z.ltb_ge; lia).
  replace (width >? Z.of_nat t)%Z with false
    by (symmetry; rewrite Z.gtb_ltb; apply Z.ltb_ge; lia).
  apply mode_check in Hmode; rewrite Hmode; simpl negb; cbv iota; simpl orb.
  cbv iota.
  assert (Hb : match bandwidth with
               | Some b => if Rleb b 0 then Raise ParameterError else Ok tt
               | None => Ok tt
               end = Ok tt).
  { destruct bandwidth as [b|]; [|reflexivity].
    rewrite Rleb_false by exact Hbw; reflexivity. }
  rewrite Hb; simpl bind; fold g.
  destruct (String.eqb mode "connectivity"); [reflexivity|].
  destruct (String.eqb mode "affinity"); reflexivity.
Qed.

(** C7, as the code has it.  On data with at least one frame
    [recurrence_matrix] raises ParameterError, and returns nothing, exactly
    when [width < 1], [width > t], [mode] is not one of the three modes, or a
    bandwidth is supplied that is not strictly positive; with any other
    parameters the checks pass.  On data without frames the reshape raises
    ValueError before any check. *)
Theorem recurrence_matrix_parameter_error (k : option Z) (width : Z)
    (sym sparse : bool) (mode : string) (bandwidth : option R) (self : bool) :
  let invalid :=
    (width < 1)%Z \/ (width > Z.of_nat t)%Z \/ ~ In mode modes \/
    (exists b, bandwidth = Some b /\ (b <= 0)%R) in
  (t = 0 ->
   recurrence_matrix t kneighbors_graph k width sym sparse mode bandwidth self
   = Raise ValueError) /\
  (1 <= t ->
   (invalid <->
    recurrence_matrix t kneighbors_graph k width sym sparse mode bandwidth self
    = Raise ParameterError)).
Proof.
  intros invalid; split; [intros ->; reflexivity|]; intros Ht.
  assert (Hdec : invalid \/ valid_parameters t width mode bandwidth).
  { unfold invalid, valid_parameters.
    destruct (Z_lt_dec width 1); [tauto|].
    destruct (Z_gt_dec width (Z.of_nat t)); [tauto|].
    destruct (existsb (String.eqb mode) modes) eqn:Hm.
    - apply mode_check in Hm.
      destruct bandwidth as [b|].
      + destruct (Rle_dec b 0).
        * left; right; right; right; exists b; auto.
        * right; repeat split; try lia; try assumption; lra.
      + right; repeat split; try lia; assumption.
    - left; right; right; left; intros Hin.
      apply mode_check in Hin; congruence. }
  split.
  - unfold invalid, recurrence_matrix; intros Hinv.
    replace (t =? 0) with false by (symmetry; apply Nat.eqb_neq; lia).
    destruct (Z.ltb_spec width 1) as [|Hw1]; [reflexivity|].
    destruct (Z.gtb_spec width (Z.of_nat t)) as [|Hw2]; [reflexivity|].
    simpl orb; cbv iota.
    destruct (existsb (String.eqb mode) modes) eqn:Hm; [|reflexivity].
    simpl negb; cbv iota.
    destruct Hinv as [H|[H|[H|(b & -> & Hb)]]]; try lia.
    + exfalso; apply H, mode_check, Hm.
    + rewrite Rleb_true by exact Hb; reflexivity.
  - intros E; destruct Hdec as [H|H]; [exact H|].
    rewrite (recurrence_matrix_valid k width sym sparse mode bandwidth self H) in E.
    cbv zeta in E.
    destruct (String.eqb mode "connectivity"); [discriminate|].
    destruct (String.eqb mode "affinity"); discriminate.
Qed.

Lemma affinity_value_0 (bw : float) : affinity_value bw 0 = Fin 0.
Proof. unfold affinity_value; rewrite Rnonzero_0; reflexivity. Qed.

(** The sentinel of a self-loop becomes [exp(0) = 1], or NaN when the
    bandwidth is NaN. *)
Lemma affinity_value_sentinel (bw : float) :
  affinity_value bw (-1) = match bw with NaN => NaN | Fin _ => Fin 1 end.
Proof.
  unfold affinity_value.
  rewrite Rnonzero_true by lra.
  rewrite Rltb_true by lra.
  destruct bw as [|b]; [reflexivity|].
  unfold Rdiv; rewrite Rmult_0_l, exp_0; reflexivity.
Qed.

Lemma Rnonzero_1 : Rnonzero 1 = true.
Proof. apply Rnonzero_true; lra. Qed.

(** C2, as the code has it.  With parameters that pass the checks, the
    returned matrix has no non-zero entry at [(i, j)] with
    [0 < |i - j| < width]; its main diagonal is empty as well unless
    [self=True] in connectivity or affinity mode, where every diagonal entry
    is non-zero. *)
Theorem recurrence_matrix_exclusion_band (k : option Z) (width : Z)
    (sym sparse : bool) (mode : string) (bandwidth : option R) (self : bool) :
  valid_parameters t width mode bandwidth ->
  exists out,
    recurrence_matrix t kneighbors_graph k width sym sparse mode bandwidth self
    = Ok out /\
    forall i j, i < t -> j < t ->
      (Z.abs (Z.of_nat i - Z.of_nat j) < width)%Z ->
      nonzero_at out i j = (i =? j) && populates_diagonal self mode.
Proof.
  intros Hv.
  rewrite (recurrence_matrix_valid k width sym sparse mode bandwidth self Hv).
  destruct Hv as (Hw & Hmode & _).
  destruct (recurrence_graph_spec t kneighbors_graph (neighbours t k width)
              width sym mode self ltac:(lia)) as [Hg He].
  set (g := recurrence_graph t kneighbors_graph (neighbours t k width)
              width sym mode self) in *.
  assert (Hentry : forall i j, i < t -> j < t ->
            (Z.abs (Z.of_nat i - Z.of_nat j) < width)%Z ->
            get 0%R (rows g) i j = if i =? j then self_value self mode else 0%R).
  { intros i j Hi Hj Hb; destruct (He i j Hi Hj) as (Hd & Hband & _).
    destruct (Nat.eqb_spec i j); auto. }
  unfold populates_diagonal, self_value in *.
  simpl in Hmode; destruct Hmode as [<-|[<-|[<-|[]]]]; simpl String.eqb in *;
    cbv iota; eexists; (split; [reflexivity|]); intros i j Hi Hj Hb;
    unfold nonzero_at.
  - replace (content (if sparse then Sparse csr (map_entries Rnonzero g)
                      else Dense (map_entries Rnonzero g)))
      with (map_entries Rnonzero g) by (destruct sparse; reflexivity).
    rewrite (get_map_entries 0%R false Rnonzero t t g i j Hg Hi Hj).
    rewrite (Hentry i j Hi Hj Hb).
    destruct (i =? j), self; simpl; auto using Rnonzero_0, Rnonzero_1.
  - replace (content (if sparse then Sparse csr (map_entries Fin g)
                      else Dense (map_entries Fin g)))
      with (map_entries Fin g) by (destruct sparse; reflexivity).
    rewrite (get_map_entries 0%R (Fin 0) Fin t t g i j Hg Hi Hj).
    rewrite (Hentry i j Hi Hj Hb); simpl.
    destruct (i =? j), self; simpl; auto using Rnonzero_0.
  - set (bw := affinity_bandwidth bandwidth g).
    replace (content (if sparse then Sparse csr (map_entries (affinity_value bw) g)
                      else Dense (map_entries (affinity_value bw) g)))
      with (map_entries (affinity_value bw) g) by (destruct sparse; reflexivity).
    rewrite (get_map_entries 0%R (Fin 0) (affinity_value bw) t t g i j Hg Hi Hj).
    rewrite (Hentry i j Hi Hj Hb).
    destruct (i =? j), self; simpl;
      rewrite ?affinity_value_0, ?affinity_value_sentinel; simpl;
      auto using Rnonzero_0.
    destruct bw; simpl; auto using Rnonzero_1.
Qed.

(** C4. With parameters that pass the checks, [sym=True] and connectivity
    mode, the returned matrix equals its own transpose. *)
Theorem recurrence_matrix_symmetric (k : option Z) (width : Z) (sparse : bool)
    (bandwidth : option R) (self : bool) :
  valid_parameters t width "connectivity" bandwidth ->
  exists out,
    recurrence_matrix t kneighbors_graph k width true sparse "connectivity"
      bandwidth self = Ok out /\
    symmetric out.
Proof.
  intros Hv.
  rewrite (recurrence_matrix_valid k width true sparse _ bandwidth self Hv).
  destruct Hv as (Hw & _ & _).
  destruct (recurrence_graph_spec t kneighbors_graph (neighbours t k width)
              width true "connectivity" self ltac:(lia)) as [Hg He].
  set (g := recurrence_graph t kneighbors_graph (neighbours t k width)
              width true "connectivity" self) in *.
  simpl String.eqb; cbv iota.
  eexists; split; [reflexivity|].
  unfold symmetric.
  replace (content (if sparse then Sparse csr (map_entries Rnonzero g)
                    else Dense (map_entries Rnonzero g)))
    with (map_entries Rnonzero g) by (destruct sparse; reflexivity).
  rewrite (tabulate_rows t t g Hg) at 1 2.
  unfold map_entries, transpose; simpl.
  rewrite map_tabulate; f_equal.
  apply tabulate_ext; intros i j Hi Hj.
  rewrite (get_tabulate false) by assumption.
  destruct (He i j Hi Hj) as (_ & _ & _ & Hsym).
  rewrite (Hsym eq_refl); reflexivity.
Qed.

Lemma Rnonzero_true_inv (x : R) : Rnonzero x = true -> x <> 0%R.
Proof. unfold Rnonzero; destruct (Req_dec_T x 0); [discriminate | auto]. Qed.

Lemma matrix_entry {A} (zero : A) (r c : nat) (a : ndarray A) (row : list A) (v : A) :
  is_matrix r c a = true -> In row (rows a) -> In v row ->
  exists i j, i < r /\ j < c /\ v = get zero (rows a) i j.
Proof.
  intros Ha Hrow Hv.
  pose proof (is_matrix_row r c a Ha) as Hlen.
  apply is_matrix_spec in Ha; destruct Ha as (_ & Hl & _).
  destruct (In_nth _ _ [] Hrow) as (i & Hi & Ei).
  subst row.
  destruct (In_nth _ _ zero Hv) as (j & Hj & Ej).
  rewrite Hlen in Hj by lia.
  exists i, j; repeat split; [lia | exact Hj | symmetry; exact Ej].
Qed.

(** With at least two points and non-negative distances, the bandwidth
    estimate is positive whenever it is a number. *)
Lemma estimated_bandwidth_positive (k width : Z) (sym : bool) (mode : string)
    (self : bool) (b : R) :
  (1 <= width)%Z -> 2 <= t ->
  nonnegative_distances kneighbors_graph ->
  nanmedian
    (max_axis1_data (recurrence_graph t kneighbors_graph k width sym mode self))
  = Fin b ->
  (0 < b)%R.
Proof.
  intros Hw Ht Hnn.
  destruct (recurrence_graph_spec t kneighbors_graph k width sym mode self Hw)
    as [Hg He].
  set (g := recurrence_graph t kneighbors_graph k width sym mode self) in *.
  apply nanmedian_positive.
  intros x Hx; unfold max_axis1_data in Hx.
  apply filter_In in Hx; destruct Hx as [Hx Hnz].
  apply Rnonzero_true_inv in Hnz.
  apply in_map_iff in Hx; destruct Hx as (row & <- & Hrow).
  pose proof (is_matrix_row t t g Hg) as Hlen.
  pose proof Hg as Hg'; apply is_matrix_spec in Hg'; destruct Hg' as (_ & Hl & _).
  destruct (In_nth _ _ [] Hrow) as (i & Hi & <-).
  rewrite Hl in Hi.
  set (j := if i =? 0 then 1 else 0).
  assert (Hj : j < t) by (unfold j; destruct (i =? 0); lia).
  assert (Hij : i <> j) by (unfold j; destruct (Nat.eqb_spec i 0); lia).
  destruct (He i j Hi Hj) as (_ & _ & Hpos & _).
  specialize (Hpos Hij Hnn).
  assert (Hin : In (get 0%R (rows g) i j) (nth i (rows g) []))
    by (apply nth_In; rewrite Hlen by exact Hi; exact Hj).
  pose proof (row_max_ge _ _ Hin); lra.
Qed.

(** C3, as the code has it.  With parameters that pass the checks and an index
    that returns non-negative distances: in connectivity mode the result is a
    boolean matrix; in distance mode every entry is [>= 0]; in affinity mode,
    if the bandwidth is a number, every non-zero entry lies in [(0, 1]]. *)
Theorem recurrence_matrix_value_range (k : option Z) (width : Z)
    (sym sparse : bool) (mode : string) (bandwidth : option R) (self : bool) :
  valid_parameters t width mode bandwidth ->
  nonnegative_distances kneighbors_graph ->
  (mode = "affinity"%string ->
   bandwidth_defined t kneighbors_graph k width sym mode bandwidth self) ->
  exists out,
    recurrence_matrix t kneighbors_graph k width sym sparse mode bandwidth self
    = Ok out /\
    in_mode_range mode out.
Proof.
  intros Hv Hnn Hbw.
  rewrite (recurrence_matrix_valid k width sym sparse mode bandwidth self Hv).
  destruct Hv as (Hw & Hmode & Hb).
  destruct (recurrence_graph_spec t kneighbors_graph (neighbours t k width)
              width sym mode self ltac:(lia)) as [Hg He].
  pose proof (estimated_bandwidth_positive (neighbours t k width) width sym mode self)
    as Hest.
  unfold bandwidth_defined in Hbw.
  set (g := recurrence_graph t kneighbors_graph (neighbours t k width)
              width sym mode self) in *.
  unfold in_mode_range, self_value in *.
  simpl in Hmode; destruct Hmode as [<-|[<-|[<-|[]]]]; simpl String.eqb in *;
    cbv iota; eexists; (split; [reflexivity|]).
  - destruct sparse; exact I.
  - assert (Hcore : Forall (Forall (float_in_range "distance"))
                      (map (map Fin) (rows g))).
    { apply Forall_map, Forall_forall; intros row Hrow.
      apply Forall_map, Forall_forall; intros v Hin.
      destruct (matrix_entry 0%R t t g row v Hg Hrow Hin) as (i & j & Hi & Hj & ->).
      destruct (He i j Hi Hj) as (Hd & _ & Hpos & _); simpl.
      destruct (Nat.eq_dec i j) as [E|E].
      - rewrite (Hd E); destruct self; lra.
      - apply Hpos; assumption. }
    destruct sparse; exact Hcore.
  - specialize (Hbw eq_refl).
    destruct (affinity_bandwidth bandwidth g) as [|b] eqn:Ebw; [congruence|].
    assert (Hcore : Forall (Forall (float_in_range "affinity"))
                      (map (map (affinity_value (Fin b))) (rows g))).
    { apply Forall_map, Forall_forall; intros row Hrow.
      apply Forall_map, Forall_forall; intros v Hin.
      destruct (matrix_entry 0%R t t g row v Hg Hrow Hin) as (i & j & Hi & Hj & ->).
      destruct (He i j Hi Hj) as (Hd & _ & Hpos & _).
      destruct (Nat.eq_dec i j) as [E|E].
      - rewrite (Hd E); destruct self.
        + rewrite affinity_value_sentinel; simpl; right; lra.
        + rewrite affinity_value_0; simpl; left; reflexivity.
      - specialize (Hpos E Hnn).
        destruct (Req_dec_T (get 0%R (rows g) i j) 0) as [Ez|Ez].
        + rewrite Ez, affinity_value_0; simpl; left; reflexivity.
        + assert (Hb0 : (0 < b)%R).
          { unfold affinity_bandwidth in Ebw.
            destruct bandwidth as [b'|].
            - injection Ebw as <-; exact Hb.
            - apply Hest; [lia | lia | exact Hnn | exact Ebw]. }
          unfold affinity_value.
          rewrite Rnonzero_true by exact Ez.
          rewrite Rltb_false by exact Hpos.
          simpl; right.
          set (v := get 0%R (rows g) i j) in *.
          assert (Hneg : (v / (-1 * b) < 0)%R).
          { unfold Rdiv.
            assert (Hinv : (/ (-1 * b) < 0)%R) by (apply Rinv_lt_0_compat; lra).
            assert (Hv : (0 < v)%R) by lra.
            nra. }
          split; [apply exp_pos|].
          rewrite <- exp_0; left; apply exp_increasing; exact Hneg. }
    destruct sparse; exact Hcore.
Qed.

End RecurrenceTheorems.

(** ** path_enhance *)

Lemma linspace_length (a b : R) (n : nat) : length (linspace a b n) = n.
Proof. unfold linspace; rewrite length_map, length_seq; reflexivity. Qed.

Lemma slope_ratios_ok (max_ratio : R) (min_ratio : option R) (n : nat) :
  (0 < max_ratio)%R ->
  (forall m, min_ratio = Some m -> (m <= max_ratio)%R) ->
  let lo := match min_ratio with Some m => m | None => (1 / max_ratio)%R end in
  slope_ratios max_ratio min_ratio (Z.of_nat n) =
  Ok (map (Rpower 2) (linspace (log2 lo) (log2 max_ratio) n)).
Proof.
  intros Hmax Hmin lo; unfold slope_ratios, logspace.
  assert (E : match min_ratio with
              | None => if Req_dec_T max_ratio 0 then Raise ZeroDivisionError
                        else Ok (1 / max_ratio)%R
              | Some m => if Rltb max_ratio m then Raise ParameterError else Ok m
              end = Ok lo).
  { unfold lo; destruct min_ratio as [m|].
    - rewrite Rltb_false by (apply Hmin; reflexivity); reflexivity.
    - destruct (Req_dec_T max_ratio 0); [lra | reflexivity]. }
  rewrite E; simpl bind.
  destruct (Z.ltb_spec (Z.of_nat n) 0); [lia|].
  rewrite Nat2Z.id; reflexivity.
Qed.

Section PathEnhanceTheorems.
Context {window kernel kwargs : Type}.
Variable diagonal_filter : window -> Z -> R -> bool -> kernel.
Variable convolve : ndarray R -> kernel -> kwargs -> ndarray R.

(** Once the accumulator holds a matrix it keeps holding one. *)
Lemma smooth_from_some (R_ : ndarray R) (n : Z) (win : window) (zero_mean : bool)
    (kw : kwargs) (ratios : list R) (acc : ndarray R) :
  exists out,
    fold_left
      (fun R_smooth ratio =>
         let kernel := diagonal_filter win n ratio zero_mean in
         match R_smooth with
         | None => Some (convolve R_ kernel kw)
         | Some acc => Some (np_maximum acc (convolve R_ kernel kw))
         end)
      ratios (Some acc) = Some out.
Proof.
  revert acc; induction ratios as [|r ratios IH]; intros acc; simpl.
  - exists acc; reflexivity.
  - apply IH.
Qed.

Lemma smooth_nonempty (R_ : ndarray R) (n : Z) (win : window) (zero_mean : bool)
    (kw : kwargs) (ratios : list R) :
  ratios <> [] ->
  exists out,
    fold_left
      (fun R_smooth ratio =>
         let kernel := diagonal_filter win n ratio zero_mean in
         match R_smooth with
         | None => Some (convolve R_ kernel kw)
         | Some acc => Some (np_maximum acc (convolve R_ kernel kw))
         end)
      ratios None = Some out.
Proof.
  destruct ratios as [|r rs]; [congruence|]; intros _; simpl.
  apply smooth_from_some.
Qed.

Lemma clip_nonnegative (a : ndarray R) :
  Forall (Forall (fun x => (0 <= x)%R)) (rows (map_entries (fun x => Rmax x 0) a)).
Proof.
  unfold map_entries; simpl.
  apply Forall_map, Forall_forall; intros row _.
  apply Forall_map, Forall_forall; intros x _.
  apply Rmax_r.
Qed.

(** C8. When [min_ratio] is omitted the ratios run from [1 / max_ratio], and
    [path_enhance] raises ParameterError exactly when a [min_ratio] is supplied
    that exceeds [max_ratio]. *)
Theorem path_enhance_min_ratio (R_ : ndarray R) (n : Z) (win : window)
    (max_ratio : R) (min_ratio : option R) (n_filters : Z)
    (zero_mean clip : bool) (kw : kwargs) :
  (max_ratio <> 0%R ->
   slope_ratios max_ratio None n_filters =
   logspace (log2 (1 / max_ratio)) (log2 max_ratio) n_filters 2) /\
  (path_enhance diagonal_filter convolve R_ n win max_ratio min_ratio n_filters
     zero_mean clip kw = Raise ParameterError <->
   exists m, min_ratio = Some m /\ (max_ratio < m)%R).
Proof.
  split.
  - intros Hmax; unfold slope_ratios.
    destruct (Req_dec_T max_ratio 0); [contradiction | reflexivity].
  - unfold path_enhance, slope_ratios, logspace, np_clip_min0; split.
    + destruct min_ratio as [m|].
      * unfold Rltb; destruct (Rlt_dec max_ratio m) as [Hlt|Hge];
          [intros _; exists m; auto|].
        simpl bind; destruct (n_filters <? 0)%Z; simpl; [discriminate|].
        destruct clip; [|discriminate].
        destruct (fold_left _ _ None); discriminate.
      * destruct (Req_dec_T max_ratio 0); simpl; [discriminate|].
        destruct (n_filters <? 0)%Z; simpl; [discriminate|].
        destruct clip; [|discriminate].
        destruct (fold_left _ _ None); discriminate.
    + intros (m & -> & Hlt); rewrite Rltb_true by exact Hlt; reflexivity.
Qed.

(** C9. Called within its contract ([max_ratio > 0], [min_ratio] positive and
    at most [max_ratio] when supplied, [n_filters >= 1]) and with [clip=True],
    [path_enhance] returns a matrix with no negative entry, whatever the
    convolution returns. *)
Theorem path_enhance_clip (R_ : ndarray R) (n : Z) (win : window)
    (max_ratio : R) (min_ratio : option R) (n_filters : Z) (zero_mean : bool)
    (kw : kwargs) :
  (0 < max_ratio)%R ->
  (forall m, min_ratio = Some m -> (0 < m <= max_ratio)%R) ->
  (1 <= n_filters)%Z ->
  exists out,
    path_enhance diagonal_filter convolve R_ n win max_ratio min_ratio n_filters
      zero_mean true kw = Ok (Some out) /\
    Forall (Forall (fun x => (0 <= x)%R)) (rows out).
Proof.
  intros Hmax Hmin Hn; unfold path_enhance.
  pose proof (slope_ratios_ok max_ratio min_ratio (Z.to_nat n_filters) Hmax
                (fun m Hm => proj2 (Hmin m Hm))) as E.
  rewrite Z2Nat.id in E by lia; simpl in E; rewrite E; unfold bind.
  set (ratios := map (Rpower 2) _).
  assert (Hne : ratios <> []).
  { intros Er; apply (f_equal (@length R)) in Er.
    unfold ratios in Er; rewrite length_map, linspace_length in Er.
    simpl in Er; lia. }
  destruct (smooth_nonempty R_ n win zero_mean kw ratios Hne) as (acc & Hacc).
  cbv zeta in Hacc; rewrite Hacc.
  simpl; eexists; split; [reflexivity | apply clip_nonnegative].
Qed.

(** C10, as the code has it.  With [n_filters = 0], [clip=False] and no
    failing check on the ratios, the loop body never runs and [path_enhance]
    returns [None]. *)
Theorem path_enhance_no_filters (R_ : ndarray R) (n : Z) (win : window)
    (max_ratio : R) (min_ratio : option R) (zero_mean : bool) (kw : kwargs) :
  (min_ratio = None -> max_ratio <> 0%R) ->
  (forall m, min_ratio = Some m -> (m <= max_ratio)%R) ->
  path_enhance diagonal_filter convolve R_ n win max_ratio min_ratio 0
    zero_mean false kw = Ok None.
Proof.
  intros Hmax Hmin; unfold path_enhance, slope_ratios, logspace.
  destruct min_ratio as [m|].
  - rewrite Rltb_false by (apply Hmin; reflexivity); reflexivity.
  - destruct (Req_dec_T max_ratio 0) as [E|_]; [|reflexivity].
    exfalso; apply Hmax; [reflexivity | exact E].
Qed.

End PathEnhanceTheorems.

(** ** Errors of the time-lag transforms *)

Section LagErrors.
Context {A : Type} (zero : A).

(** [recurrence_to_lag] rejects every input that is not a square matrix. *)
Lemma recurrence_to_lag_non_square (rec : matrix A) (pad : bool) (axis : Z) :
  (forall s, shape (content rec) <> [s; s]) ->
  recurrence_to_lag zero rec pad axis = Raise ParameterError.
Proof.
  intros Hs; unfold recurrence_to_lag.
  destruct (shape (content rec)) as [|s0 [|s1 [|s2 sh]]]; try reflexivity.
  destruct (Nat.eqb_spec s0 s1) as [->|_]; [|reflexivity].
  exfalso; apply (Hs s1); reflexivity.
Qed.

(** [lag_to_recurrence] rejects every axis other than 0, 1 and -1. *)
Lemma lag_to_recurrence_invalid_axis (lag : matrix A) (axis : Z) :
  ~ In axis [0; 1; -1]%Z ->
  lag_to_recurrence zero lag axis = Raise ParameterError.
Proof.
  intros Hax; unfold lag_to_recurrence.
  destruct (existsb (Z.eqb axis) [0; 1; -1]%Z) eqn:E; [|reflexivity].
  exfalso; apply Hax.
  apply existsb_exists in E; destruct E as (z & Hin & Hz).
  apply Z.eqb_eq in Hz; subst z; exact Hin.
Qed.

(** [lag_to_recurrence] rejects every shape that is neither square nor twice
    as long on the lag axis as on the time axis. *)
Lemma lag_to_recurrence_invalid_shape (lag : matrix A) (axis : Z) :
  (forall s, shape (content lag) <> [s; s]) ->
  (forall s, shape (content lag) <> [2 * s; s] \/ Z.abs axis <> 1%Z) ->
  (forall s, shape (content lag) <> [s; 2 * s] \/ Z.abs axis <> 0%Z) ->
  lag_to_recurrence zero lag axis = Raise ParameterError.
Proof.
  intros Hsq Hrows Hcols; unfold lag_to_recurrence.
  destruct (existsb (Z.eqb axis) [0; 1; -1]%Z) eqn:E; [|reflexivity].
  simpl negb; cbv iota.
  destruct (shape (content lag)) as [|s0 [|s1 [|s2 sh]]]; try reflexivity.
  assert (Hne : s0 <> s1) by (intros ->; apply (Hsq s1); reflexivity).
  apply existsb_exists in E; destruct E as (z & Hin & Hz).
  apply Z.eqb_eq in Hz; subst z.
  simpl in Hin; destruct Hin as [<-|[<-|[<-|[]]]]; simpl;
    (destruct (Nat.eqb_spec s0 s1); [contradiction|]); simpl.
  - destruct (Nat.eqb_spec s1 (s0 + (s0 + 0))) as [->|_]; [|reflexivity].
    destruct (Hcols s0) as [H|H]; exfalso; apply H; reflexivity.
  - destruct (Nat.eqb_spec s0 (s1 + (s1 + 0))) as [->|_]; [|reflexivity].
    destruct (Hrows s1) as [H|H]; exfalso; apply H; reflexivity.
  - destruct (Nat.eqb_spec s0 (s1 + (s1 + 0))) as [->|_]; [|reflexivity].
    destruct (Hrows s1) as [H|H]; exfalso; apply H; reflexivity.
Qed.

End LagErrors.

(** C6, the failing case.  [recurrence_to_lag] has no check of [axis]: on a
    square matrix and [axis=2] the lookup [rec.shape[axis]] raises IndexError,
    where [lag_to_recurrence] raises ParameterError for the same axis. *)
Theorem recurrence_to_lag_invalid_axis :
  recurrence_to_lag 0%Z example_dense true 2 = Raise IndexError /\
  lag_to_recurrence 0%Z example_dense 2 = Raise ParameterError.
Proof. split; reflexivity. Qed.

(** ** The properties on concrete calls *)

Lemma two_points_nonnegative : nonnegative_distances two_points.
Proof.
  intros n m i j; unfold two_points, get.
  destruct i as [|[|[|i]]]; simpl; destruct j as [|[|[|j]]]; simpl; lra.
Qed.

Lemma valid_connectivity_example : valid_parameters 2 1 "connectivity" None.
Proof. unfold valid_parameters, modes; simpl; repeat split; try lia; tauto. Qed.

Lemma valid_affinity_example : valid_parameters 2 2 "affinity" None.
Proof. unfold valid_parameters, modes; simpl; repeat split; try lia; tauto. Qed.

Lemma valid_bandwidth_example : valid_parameters 2 1 "affinity" (Some 1%R).
Proof. unfold valid_parameters, modes; simpl; repeat split; try lia; try tauto; lra. Qed.

(** C2 on two points with [width=1], [self=True] in connectivity mode. *)
Lemma exclusion_band_example :
  valid_parameters 2 1 "connectivity" None /\
  exists out,
    recurrence_matrix 2 two_points None 1 false false "connectivity" None true
    = Ok out /\
    forall i j, i < 2 -> j < 2 ->
      (Z.abs (Z.of_nat i - Z.of_nat j) < 1)%Z ->
      nonzero_at out i j = (i =? j) && populates_diagonal true "connectivity".
Proof.
  split; [exact valid_connectivity_example|].
  apply (recurrence_matrix_exclusion_band 2 two_points None 1 false false
           "connectivity" None true valid_connectivity_example).
Defined.

(** C2 as stated fails: with [self=True] in connectivity mode the entry at
    [(0, 0)] is set, and [|0 - 0| < width]. *)
Lemma self_loop_within_width :
  valid_parameters 2 1 "connectivity" None /\
  exists out,
    recurrence_matrix 2 two_points None 1 false false "connectivity" None true
    = Ok out /\
    ~ empty_within_width 2 1 out.
Proof.
  split; [exact valid_connectivity_example|].
  rewrite (recurrence_matrix_valid 2 two_points None 1 false false
             "connectivity" None true valid_connectivity_example).
  simpl String.eqb; cbv iota.
  destruct (recurrence_graph_spec 2 two_points (neighbours 2 None 1) 1 false
              "connectivity" true ltac:(lia)) as [Hg He].
  set (g := recurrence_graph 2 two_points (neighbours 2 None 1) 1 false
              "connectivity" true) in *.
  exists (BoolRec (Dense (map_entries Rnonzero g))); split; [reflexivity|].
  intros H; specialize (H 0 0 ltac:(lia) ltac:(lia) ltac:(simpl; lia)).
  unfold nonzero_at, content in H.
  rewrite (get_map_entries 0%R false Rnonzero 2 2 g 0 0 Hg) in H by lia.
  destruct (He 0 0 ltac:(lia) ltac:(lia)) as (Hd & _).
  rewrite (Hd eq_refl) in H; simpl in H.
  rewrite Rnonzero_1 in H; discriminate.
Qed.

(** C7 on two points: [width = 3] exceeds [t = 2] and the call raises
    ParameterError. *)
Lemma recurrence_matrix_parameter_error_example :
  1 <= 2 /\ (3 > Z.of_nat 2)%Z /\
  recurrence_matrix 2 two_points None 3 false false "connectivity" None false
  = Raise ParameterError.
Proof.
  split; [lia|].
  split; [lia|].
  apply (proj2 (recurrence_matrix_parameter_error 2 two_points None 3 false false
                  "connectivity" None false) ltac:(lia)).
  right; left; lia.
Defined.

(** C7 as stated fails on data without frames: [width = 1] exceeds [t = 0],
    yet the call raises ValueError from the reshape, not ParameterError. *)
Lemma recurrence_matrix_empty_data :
  (1 > Z.of_nat 0)%Z /\
  recurrence_matrix 0 two_points None 1 false false "connectivity" None false
  = Raise ValueError /\
  recurrence_matrix 0 two_points None 1 false false "connectivity" None false
  <> Raise ParameterError.
Proof.
  split; [lia|]; split; [reflexivity|].
  change (@Raise recurrence ValueError <> Raise ParameterError); discriminate.
Qed.

(** C4 on two points. *)
Lemma symmetric_example :
  valid_parameters 2 1 "connectivity" None /\
  exists out,
    recurrence_matrix 2 two_points None 1 true false "connectivity" None false
    = Ok out /\
    symmetric out.
Proof.
  split; [exact valid_connectivity_example|].
  apply (recurrence_matrix_symmetric 2 two_points None 1 false None false
           valid_connectivity_example).
Defined.

(** C3 on two points in affinity mode with bandwidth 1. *)
Lemma value_range_example :
  valid_parameters 2 1 "affinity" (Some 1%R) /\
  nonnegative_distances two_points /\
  bandwidth_defined 2 two_points None 1 false "affinity" (Some 1%R) false /\
  exists out,
    recurrence_matrix 2 two_points None 1 false false "affinity" (Some 1%R) false
    = Ok out /\
    in_mode_range "affinity" out.
Proof.
  split; [exact valid_bandwidth_example|].
  split; [exact two_points_nonnegative|].
  split; [unfold bandwidth_defined, affinity_bandwidth; discriminate|].
  apply (recurrence_matrix_value_range 2 two_points None 1 false false
           "affinity" (Some 1%R) false valid_bandwidth_example
           two_points_nonnegative).
  intros _; unfold bandwidth_defined, affinity_bandwidth; discriminate.
Defined.

(** With [width = t = 2] every link is inside the exclusion band: the graph
    holds the two self-loop sentinels and nothing else. *)
Lemma sentinel_graph :
  recurrence_graph 2 two_points (neighbours 2 None 2) 2 false "affinity" true
  = mk_ndarray [2; 2] [[-1; 0]; [0; -1]]%R.
Proof.
  destruct (recurrence_graph_spec 2 two_points (neighbours 2 None 2) 2 false
              "affinity" true ltac:(lia)) as [Hg He].
  apply (matrix_ext 0%R 2 2); [exact Hg | reflexivity |].
  intros i j Hi Hj; destruct (He i j Hi Hj) as (Hd & Hb & _).
  destruct i as [|[|i]]; [| |lia]; (destruct j as [|[|j]]; [| |lia]).
  - rewrite (Hd eq_refl); reflexivity.
  - rewrite Hb by (simpl; lia); reflexivity.
  - rewrite Hb by (simpl; lia); reflexivity.
  - rewrite (Hd eq_refl); reflexivity.
Qed.

(** C3 as stated fails: on two points with [width=2], [self=True] and no
    bandwidth, the estimate is the median of no value, NaN, and so are the
    diagonal entries of the affinity matrix. *)
Lemma affinity_self_loop_is_nan :
  valid_parameters 2 2 "affinity" None /\
  nonnegative_distances two_points /\
  exists out,
    recurrence_matrix 2 two_points None 2 false false "affinity" None true
    = Ok out /\
    nonzero_at out 0 0 = true /\
    ~ in_mode_range "affinity" out.
Proof.
  split; [exact valid_affinity_example|].
  split; [exact two_points_nonnegative|].
  rewrite (recurrence_matrix_valid 2 two_points None 2 false false
             "affinity" None true valid_affinity_example).
  simpl String.eqb; cbv iota.
  rewrite sentinel_graph.
  assert (Hbw : affinity_bandwidth None (mk_ndarray [2; 2] [[-1; 0]; [0; -1]]%R) = NaN).
  { unfold affinity_bandwidth, max_axis1_data; simpl.
    rewrite (Rmax_right (-1) 0) by lra.
    rewrite (Rmax_left 0 (-1)) by lra.
    rewrite Rnonzero_0; reflexivity. }
  rewrite Hbw.
  eexists; split; [reflexivity|].
  unfold nonzero_at, in_mode_range, map_entries, get; simpl.
  rewrite affinity_value_sentinel; split; [reflexivity|].
  intros H; inversion H as [|row rest Hrow _]; subst.
  inversion Hrow as [|x xs Hx _]; subst.
  exact Hx.
Qed.

(** C9 on a 1 by 2 input with a negative entry. *)
Lemma path_enhance_clip_example :
  (0 < 2)%R /\ (1 <= 3)%Z /\
  exists out,
    path_enhance unit_filter identity_convolve example_input 3 tt 2 None 3
      false true tt = Ok (Some out) /\
    Forall (Forall (fun x => (0 <= x)%R)) (rows out).
Proof.
  split; [lra|].
  split; [lia|].
  apply (path_enhance_clip unit_filter identity_convolve example_input 3 tt 2
           None 3 false tt); [lra | discriminate | lia].
Defined.

(** C10 on the same input with [clip=False]. *)
Lemma path_enhance_no_filters_example :
  (2 <> 0)%R /\
  path_enhance unit_filter identity_convolve example_input 3 tt 2 None 0
    false false tt = Ok None.
Proof.
  split; [lra|].
  apply (path_enhance_no_filters unit_filter identity_convolve example_input 3
           tt 2 None false tt); [intros _; lra | discriminate].
Defined.

(** C10 as stated fails: with [n_filters = 0] a supplied [min_ratio] above
    [max_ratio] still raises ParameterError, and with [clip=True] the clip of
    the [None] accumulator raises TypeError. *)
Lemma path_enhance_no_filters_raises :
  path_enhance unit_filter identity_convolve example_input 3 tt 2 (Some 3%R) 0
    false false tt = Raise ParameterError /\
  path_enhance unit_filter identity_convolve example_input 3 tt 2 None 0
    false true tt = Raise TypeError.
Proof.
  unfold path_enhance, slope_ratios; split.
  - rewrite Rltb_true by lra; reflexivity.
  - destruct (Req_dec_T 2 0); [lra | reflexivity].
Qed.

(** ** The entries of the unpadded lag matrix *)

Section LagEntries.
Context {A : Type} (zero : A).

Lemma nth_roll_sparse (x : list A) (s : Z) (k : nat) :
  k < length x ->
  nth k (roll_sparse x s) zero =
  nth (Z.to_nat ((Z.of_nat k - s) mod Z.of_nat (length x))) x zero.
Proof.
  intros Hk; unfold roll_sparse.
  set (n := length x) in *.
  assert (Hpos : (0 < Z.of_nat n)%Z) by lia.
  pose proof (Z.mod_pos_bound s (Z.of_nat n) Hpos) as Hb.
  set (s' := Z.to_nat (s mod Z.of_nat n)).
  assert (Hs : Z.of_nat s' = (s mod Z.of_nat n)%Z) by (unfold s'; lia).
  rewrite <- Zminus_mod_idemp_r, <- Hs.
  destruct (Nat.lt_ge_cases k s') as [Hlt|Hge].
  - rewrite app_nth1 by (rewrite length_skipn; fold n; lia).
    rewrite nth_skipn; f_equal.
    rewrite <- (Z.mod_unique (Z.of_nat k - Z.of_nat s') (Z.of_nat n) (-1)
                  (Z.of_nat (n - s' + k))); [lia | left; lia | lia].
  - rewrite app_nth2 by (rewrite length_skipn; fold n; lia).
    rewrite length_skipn; fold n.
    rewrite nth_firstn.
    replace (k - (n - (n - s')) <? n - s') with true
      by (symmetry; apply Nat.ltb_lt; lia).
    f_equal.
    rewrite Z.mod_small by lia; lia.
Qed.

(** X1. Without padding, [lag[i, j] == rec[(i + j) mod t, j]]: the docstring's
    [lag[i, j] == rec[i+j, j]] for a signal that repeats itself. *)
Theorem recurrence_to_lag_unpadded (a : ndarray A) (t : nat) :
  is_matrix t t a = true ->
  exists lag,
    recurrence_to_lag zero (Dense a) false (-1) = Ok (Dense lag) /\
    is_matrix t t lag = true /\
    forall i j, i < t -> j < t ->
      get zero (rows lag) i j = get zero (rows a) ((i + j) mod t) j.
Proof.
  intros Ha; pose proof (is_matrix_shape _ _ _ Ha) as Hs.
  unfold recurrence_to_lag; simpl content; rewrite Hs, Nat.eqb_refl.
  simpl negb; cbv iota; simpl issparse; cbv iota.
  change (Z.abs (-1)) with 1%Z; change (Z.to_nat 1) with 1.
  change (tuple_index [t; t] 1) with (Ok t); unfold bind.
  destruct (slice_loop zero 1 t t (fun i v => roll_sparse v (- Z.of_nat i))
              (fun i v _ Hv => eq_trans (roll_sparse_length v _) Hv)
              (seq 1 (t - 1)) a (seq_NoDup _ _)) as [Hlag Hsl];
    [intros i Hi; apply in_seq in Hi; unfold slice_count; simpl; lia | exact Ha |].
  eexists; split; [reflexivity|]; split; [exact Hlag|].
  intros i j Hi Hj.
  pose proof (nth_get_slice zero 1 j i) as Hn.
  change (1 =? 0) with false in Hn; cbv iota in Hn.
  rewrite <- Hn, (Hsl j Hj).
  pose proof (get_slice_length zero 1 j t t a Ha ltac:(discriminate)) as Hlen.
  change (1 =? 0) with false in Hlen; cbv iota in Hlen.
  assert (Hmod : (i + j) mod t < t) by (apply Nat.mod_upper_bound; lia).
  destruct (in_dec Nat.eq_dec j (seq 1 (t - 1))) as [Hin|Hnot].
  - rewrite nth_roll_sparse by (rewrite Hlen; exact Hi).
    rewrite Hlen, nth_get_slice.
    change (1 =? 0) with false; cbv iota; f_equal.
    replace (Z.of_nat i - - Z.of_nat j)%Z with (Z.of_nat (i + j)) by lia.
    rewrite <- Nat2Z.inj_mod, Nat2Z.id; reflexivity.
  - assert (j = 0) by (destruct (Nat.eq_dec j 0); [assumption|];
                       exfalso; apply Hnot, in_seq; lia).
    subst j; rewrite Hn, Nat.add_0_r, Nat.mod_small by exact Hi; reflexivity.
Qed.

End LagEntries.

(** X1 on the 4 by 4 matrix with only (0, 2) and (2, 0) set: both entries move
    to row 2 of the lag matrix. *)
Lemma recurrence_to_lag_unpadded_example :
  is_matrix 4 4 example_bool = true /\
  recurrence_to_lag false (Dense example_bool) false (-1) =
  Ok (Dense (mk_ndarray [4; 4]
               [[false; false; false; false];
                [false; false; false; false];
                [true; false; true; false];
                [false; false; false; false]])) /\
  exists lag,
    recurrence_to_lag false (Dense example_bool) false (-1) = Ok (Dense lag) /\
    is_matrix 4 4 lag = true /\
    forall i j, i < 4 -> j < 4 ->
      get false (rows lag) i j = get false (rows example_bool) ((i + j) mod 4) j.
Proof.
  split; [reflexivity|].
  split; [reflexivity|].
  apply (recurrence_to_lag_unpadded false example_bool 4); reflexivity.
Defined.

(** ** The two transforms on well-formed input *)

Section LagEvaluation.
Context {A : Type} (zero : A).

Lemma valid_axis (axis : Z) :
  In axis [0; 1; -1]%Z ->
  negb (existsb (Z.eqb axis) [0; 1; -1]%Z) = false /\
  exists ax, ax < 2 /\ Z.abs axis = Z.of_nat ax.
Proof.
  intros H; simpl in H; destruct H as [<-|[<-|[<-|[]]]];
    (split; [reflexivity|]); [exists 0 | exists 1 | exists 1]; split; auto.
Qed.

(** On a square matrix [recurrence_to_lag] returns the padded (or copied)
    array with every slice rolled back by its own index. *)
Lemma recurrence_to_lag_square (m : matrix A) (t ax : nat) (pad : bool) (axis : Z) :
  is_matrix t t (content m) = true -> ax < 2 -> Z.abs axis = Z.of_nat ax ->
  recurrence_to_lag zero m pad axis =
  Ok (with_content m
        (fold_left
           (fun lag i =>
              set_slice ax i (roll_sparse (get_slice zero ax i lag) (- Z.of_nat i)) lag)
           (seq 1 (t - 1))
           (if pad then np_pad zero (1 - ax) t (content m) else content m))).
Proof.
  intros Hm Hax Habs.
  pose proof (is_matrix_shape _ _ _ Hm) as Hs.
  assert (Hidx : tuple_index [t; t] (Z.of_nat ax) = Ok t)
    by (destruct ax as [|[|ax]]; [reflexivity | reflexivity | lia]).
  unfold recurrence_to_lag.
  rewrite Hs, Nat.eqb_refl; simpl negb; cbv iota.
  rewrite Habs.
  destruct m as [a|fmt a]; simpl issparse; cbv iota; simpl content in *.
  - rewrite Hs, Hidx; unfold bind; rewrite Nat2Z.id.
    destruct pad; reflexivity.
  - assert (Hk : content
              (if (Z.of_nat ax =? 0)%Z then tocsc (Sparse fmt a)
               else if (Z.of_nat ax =? -1)%Z || (Z.of_nat ax =? 1)%Z
                    then tocsr (Sparse fmt a) else Sparse fmt a) = a)
      by (destruct (Z.of_nat ax =? 0)%Z;
          [|destruct ((Z.of_nat ax =? -1)%Z || (Z.of_nat ax =? 1)%Z)]; reflexivity).
    rewrite Hk, Hs, Hidx; unfold bind; rewrite Nat2Z.id.
    destruct pad; [|reflexivity].
    rewrite (kron_unit_np_pad zero ax t a Hs Hax); reflexivity.
Qed.

(** Reading the slices of a subscriptable matrix never fails: the loop of
    [lag_to_recurrence] is then a plain fold. *)
Lemma getitem_loop (l : matrix A) (ax : nat) (idx : list nat) (init : ndarray A) :
  subscriptable l = true ->
  fold_left
    (fun rec i =>
       do rec <- rec;
       do slice <- getitem zero l ax i;
       Ok (set_slice ax i (roll_sparse slice (Z.of_nat i)) rec))
    idx (Ok init) =
  Ok (fold_left
        (fun rec i =>
           set_slice ax i (roll_sparse (get_slice zero ax i (content l)) (Z.of_nat i))
             rec)
        idx init).
Proof.
  intros Hl; revert init; induction idx as [|i idx IH]; intros init;
    [reflexivity|].
  cbn [fold_left bind]; unfold getitem at 2; rewrite Hl; cbn [bind]; apply IH.
Qed.

Lemma loop_raised (l : matrix A) (ax : nat) (idx : list nat) (e : exception) :
  fold_left
    (fun rec i =>
       do rec <- rec;
       do slice <- getitem zero l ax i;
       Ok (set_slice ax i (roll_sparse slice (Z.of_nat i)) rec))
    idx (Raise e) = Raise e.
Proof. induction idx as [|i idx IH]; [reflexivity | exact IH]. Qed.

(** On a matrix that is not subscriptable the first pass of the loop raises
    TypeError. *)
Lemma getitem_loop_raises (l : matrix A) (ax : nat) (idx : list nat)
    (init : ndarray A) :
  subscriptable l = false -> idx <> [] ->
  fold_left
    (fun rec i =>
       do rec <- rec;
       do slice <- getitem zero l ax i;
       Ok (set_slice ax i (roll_sparse slice (Z.of_nat i)) rec))
    idx (Ok init) = Raise TypeError.
Proof.
  intros Hl Hne; destruct idx as [|i idx]; [congruence|].
  cbn [fold_left bind]; unfold getitem at 2; rewrite Hl; cbn [bind];
    apply loop_raised.
Qed.

Lemma subscriptable_with_content {B} (m : matrix A) (a : ndarray B) :
  subscriptable (with_content m a) = subscriptable m.
Proof. destruct m as [|[]]; reflexivity. Qed.

(** On a square lag matrix, or one twice as long on the lag axis, that can be
    subscripted, [lag_to_recurrence] rolls every slice forward by its index
    and cuts the lag axis to the length of the time axis. *)
Lemma lag_to_recurrence_shaped (l : matrix A) (s0 s1 ax : nat) (axis : Z) :
  subscriptable l = true ->
  shape (content l) = [s0; s1] ->
  In axis [0; 1; -1]%Z -> Z.abs axis = Z.of_nat ax ->
  s0 = s1 \/ slice_length ax s0 s1 = 2 * slice_count ax s0 s1 ->
  lag_to_recurrence zero l axis =
  Ok (with_content l
        (slice_upto (1 - ax) (slice_count ax s0 s1)
           (fold_left
              (fun rec i =>
                 set_slice ax i
                   (roll_sparse (get_slice zero ax i (content l)) (Z.of_nat i)) rec)
              (seq 1 (slice_count ax s0 s1 - 1)) (content l)))).
Proof.
  intros Hsub Hs Haxis Habs Hshape.
  destruct (valid_axis axis Haxis) as (Hvalid & ax' & Hax' & Habs').
  assert (ax' = ax) by lia; subst ax'.
  unfold lag_to_recurrence; rewrite Hvalid, Habs, Hs; simpl negb; cbv iota.
  rewrite Nat2Z.id.
  unfold slice_length, slice_count in *.
  destruct ax as [|[|ax]]; [| |lia]; cbn [Nat.eqb] in Hshape |- *.
  - change (tuple_index [s0; s1] (1 - Z.of_nat 0)) with (Ok s1).
    change (tuple_index [s0; s1] (Z.of_nat 0)) with (Ok s0).
    unfold bind at 1 2.
    change (2 * s0) with (s0 + (s0 + 0)) in Hshape.
    assert (E : negb (s0 =? s1) && negb (s1 =? s0 + (s0 + 0)) = false).
    { destruct Hshape as [->| ->]; rewrite ?Nat.eqb_refl; simpl;
        [reflexivity | apply andb_false_r]. }
    rewrite E, (getitem_loop l 0 _ _ Hsub); destruct l; reflexivity.
  - change (tuple_index [s0; s1] (1 - Z.of_nat 1)) with (Ok s0).
    change (tuple_index [s0; s1] (Z.of_nat 1)) with (Ok s1).
    unfold bind at 1 2.
    change (2 * s1) with (s1 + (s1 + 0)) in Hshape.
    assert (E : negb (s0 =? s1) && negb (s0 =? s1 + (s1 + 0)) = false).
    { destruct Hshape as [->| ->]; rewrite ?Nat.eqb_refl; simpl;
        [reflexivity | apply andb_false_r]. }
    rewrite E, (getitem_loop l 1 _ _ Hsub); destruct l; reflexivity.
Qed.

Lemma slice_upto_all (ax r c t : nat) (a : ndarray A) :
  is_matrix r c a = true -> slice_count ax r c <= t ->
  slice_upto ax t a = a.
Proof.
  intros H Ht; apply is_matrix_spec in H; destruct H as (Hs & Hl & Hr).
  destruct a as [sh rw]; simpl in *; subst sh.
  unfold slice_upto, slice_count in *; simpl.
  destruct (Nat.eqb_spec ax 0) as [Hax|Hax].
  - rewrite Nat.min_r by lia; f_equal; apply firstn_all2; lia.
  - rewrite Nat.min_r by lia; f_equal.
    rewrite <- (map_id rw) at 2; apply map_ext_in; intros row Hin.
    rewrite Forall_forall in Hr; apply firstn_all2; rewrite (Hr _ Hin); lia.
Qed.

(** The loop of [lag_to_recurrence] followed by the loop of
    [recurrence_to_lag] restores the array as well. *)
Lemma unroll_roll (ax r c t : nat) (l : ndarray A) :
  is_matrix r c l = true -> t <= slice_count ax r c ->
  let rec :=
    fold_left
      (fun rec i =>
         set_slice ax i (roll_sparse (get_slice zero ax i l) (Z.of_nat i)) rec)
      (seq 1 (t - 1)) l in
  is_matrix r c rec = true /\
  fold_left
    (fun lag i =>
       set_slice ax i (roll_sparse (get_slice zero ax i lag) (- Z.of_nat i)) lag)
    (seq 1 (t - 1)) rec = l.
Proof.
  intros Hl Ht rec.
  assert (Hnd : NoDup (seq 1 (t - 1))) by apply seq_NoDup.
  assert (Hin : forall i, In i (seq 1 (t - 1)) -> i < slice_count ax r c)
    by (intros i Hi; apply in_seq in Hi; lia).
  destruct (slice_loop zero ax r c
              (fun i _ => roll_sparse (get_slice zero ax i l) (Z.of_nat i))
              (fun i v Hi _ =>
                 eq_trans (roll_sparse_length _ _) (get_slice_len zero ax r c i l Hl Hi))
              (seq 1 (t - 1)) l Hnd Hin Hl) as [Hrec Hsl1].
  fold rec in Hrec, Hsl1.
  destruct (slice_loop zero ax r c (fun i v => roll_sparse v (- Z.of_nat i))
              (fun i v _ Hv => eq_trans (roll_sparse_length v _) Hv)
              (seq 1 (t - 1)) rec Hnd Hin Hrec) as [Hlag Hsl2].
  split; [exact Hrec|].
  apply (slice_ext zero ax r c); try assumption.
  intros i Hi; rewrite (Hsl2 i Hi), (Hsl1 i Hi).
  destruct (in_dec Nat.eq_dec i (seq 1 (t - 1))); [|reflexivity].
  pose proof (roll_sparse_inverse (get_slice zero ax i l) (- Z.of_nat i)) as E.
  rewrite Z.opp_involutive in E; exact E.
Qed.

End LagEvaluation.

Section LagInverse.
Context {A : Type} (zero : A).

Lemma content_with_content {B} (m : matrix A) (a : ndarray B) :
  content (with_content m a) = a.
Proof. destruct m; reflexivity. Qed.

Lemma with_content_twice {B C} (m : matrix A) (a : ndarray B) (b : ndarray C) :
  with_content (with_content m a) b = with_content m b.
Proof. destruct m; reflexivity. Qed.

Lemma with_content_same (m : matrix A) : with_content m (content m) = m.
Proof. destruct m; reflexivity. Qed.

(** X2. Without padding the two transforms are inverse to each other on
    square matrices, in both orders, for each time axis and every input that
    can be subscripted: an ndarray or a sparse matrix in csr, csc, lil or dok
    format. *)
Theorem lag_transforms_inverse_unpadded (m : matrix A) (t : nat) (axis : Z) :
  is_matrix t t (content m) = true ->
  In axis [0; 1; -1]%Z ->
  subscriptable m = true ->
  (exists lag,
     recurrence_to_lag zero m false axis = Ok lag /\
     lag_to_recurrence zero lag axis = Ok m) /\
  (exists rec,
     lag_to_recurrence zero m axis = Ok rec /\
     recurrence_to_lag zero rec false axis = Ok m).
Proof.
  intros Hm Haxis Hsub.
  destruct (valid_axis axis Haxis) as (_ & ax & Hax & Habs).
  pose proof (is_matrix_shape _ _ _ Hm) as Hs.
  assert (Hcount : slice_count ax t t = t) by (unfold slice_count; destruct (ax =? 0); reflexivity).
  split.
  - rewrite (recurrence_to_lag_square zero m t ax false axis Hm Hax Habs).
    eexists; split; [reflexivity|].
    pose proof (to_lag_loop_is_matrix zero ax t t t (content m) Hm
                  ltac:(rewrite Hcount; lia)) as Hlag.
    rewrite (lag_to_recurrence_shaped zero _ t t ax axis);
      [| rewrite subscriptable_with_content; exact Hsub
       | rewrite content_with_content; apply (is_matrix_shape _ _ _ Hlag)
       | exact Haxis | exact Habs | left; reflexivity].
    rewrite content_with_content, with_content_twice, Hcount.
    pose proof (roll_unroll zero ax t t t (content m) Hm ltac:(rewrite Hcount; lia)) as E.
    cbv zeta in E; rewrite E.
    rewrite (slice_upto_all (1 - ax) t t t (content m) Hm)
      by (unfold slice_count; destruct (1 - ax =? 0); lia).
    rewrite with_content_same; reflexivity.
  - rewrite (lag_to_recurrence_shaped zero m t t ax axis Hsub Hs Haxis Habs
               (or_introl eq_refl)).
    eexists; split; [reflexivity|].
    rewrite Hcount.
    destruct (unroll_roll zero ax t t t (content m) Hm ltac:(rewrite Hcount; lia))
      as [Hrec E].
    rewrite (slice_upto_all (1 - ax) t t t _ Hrec)
      by (unfold slice_count; destruct (1 - ax =? 0); lia).
    rewrite (recurrence_to_lag_square zero _ t ax false axis);
      [| rewrite content_with_content; exact Hrec | exact Hax | exact Habs].
    rewrite content_with_content, with_content_twice, E, with_content_same.
    reflexivity.
Qed.

(** X20. For a square matrix [m] that can be subscripted (an ndarray or a
    sparse matrix in csr, csc, lil or dok format), [recurrence_to_lag] with
    [pad=True] followed by [lag_to_recurrence] on the same time axis returns
    [m] itself: the same entries, the same shape and, for a sparse input, the
    same storage format. *)
Theorem lag_to_recurrence_recurrence_to_lag (m : matrix A) (t : nat) (axis : Z) :
  is_matrix t t (content m) = true ->
  In axis [0; 1; -1]%Z ->
  subscriptable m = true ->
  exists lag,
    recurrence_to_lag zero m true axis = Ok lag /\
    lag_to_recurrence zero lag axis = Ok m.
Proof.
  intros Hm Haxis Hsub.
  destruct (valid_axis axis Haxis) as (_ & ax & Hax & Habs).
  rewrite (recurrence_to_lag_square zero m t ax true axis Hm Hax Habs).
  eexists; split; [reflexivity|].
  destruct (round_trip_content zero ax t (content m) Hm Hax) as [Hshape Hback].
  rewrite (lag_to_recurrence_shaped zero _ (lag_rows ax t) (lag_cols ax t) ax axis);
    [| rewrite subscriptable_with_content; exact Hsub
     | rewrite content_with_content; exact Hshape
     | exact Haxis | exact Habs
     | right; unfold slice_length, slice_count, lag_rows, lag_cols;
       destruct (ax =? 0); lia].
  rewrite content_with_content, with_content_twice.
  replace (slice_count ax (lag_rows ax t) (lag_cols ax t)) with t
    by (unfold slice_count, lag_rows, lag_cols; destruct (ax =? 0); reflexivity).
  rewrite Hback, with_content_same; reflexivity.
Qed.

(** C1. The round trip fails on the sparse formats that cannot be
    subscripted: for a square coo, dia or bsr matrix with at least two rows,
    [recurrence_to_lag] with [pad=True] returns a lag matrix in the format of
    its input, on which [lag_to_recurrence] raises TypeError when it reads
    the first slice. *)
Theorem lag_to_recurrence_not_subscriptable (m : matrix A) (t : nat) (axis : Z) :
  is_matrix t t (content m) = true ->
  In axis [0; 1; -1]%Z ->
  subscriptable m = false ->
  2 <= t ->
  exists lag,
    recurrence_to_lag zero m true axis = Ok lag /\
    lag_to_recurrence zero lag axis = Raise TypeError.
Proof.
  intros Hm Haxis Hsub Ht.
  destruct (valid_axis axis Haxis) as (Hvalid & ax & Hax & Habs).
  rewrite (recurrence_to_lag_square zero m t ax true axis Hm Hax Habs).
  eexists; split; [reflexivity|].
  destruct (round_trip_content zero ax t (content m) Hm Hax) as [Hshape _].
  cbv zeta in Hshape.
  unfold lag_to_recurrence.
  rewrite Hvalid, Habs, content_with_content, Hshape, Nat2Z.id.
  assert (Hne : seq 1 (t - 1) <> [])
    by (destruct t as [|[|t]]; [lia | lia | discriminate]).
  unfold lag_rows, lag_cols.
  destruct ax as [|[|ax]]; [| |lia]; cbn [Nat.eqb].
  - change (tuple_index [t; t + t] (1 - Z.of_nat 0)) with (Ok (t + t)).
    change (tuple_index [t; t + t] (Z.of_nat 0)) with (Ok t).
    cbn [bind].
    replace (t + t =? 2 * t) with true by (symmetry; apply Nat.eqb_eq; lia).
    rewrite andb_false_r.
    rewrite getitem_loop_raises;
      [reflexivity | rewrite subscriptable_with_content; exact Hsub | exact Hne].
  - change (tuple_index [t + t; t] (1 - Z.of_nat 1)) with (Ok (t + t)).
    change (tuple_index [t + t; t] (Z.of_nat 1)) with (Ok t).
    cbn [bind].
    replace (t + t =? 2 * t) with true by (symmetry; apply Nat.eqb_eq; lia).
    rewrite andb_false_r.
    rewrite getitem_loop_raises;
      [reflexivity | rewrite subscriptable_with_content; exact Hsub | exact Hne].
Qed.

End LagInverse.

Section PaddedEntries.
Context {A : Type} (zero : A).

Lemma get_np_pad_rows (a : ndarray A) (t i j : nat) :
  is_matrix t t a = true -> i < t + t -> j < t ->
  get zero (rows (np_pad zero 0 t a)) i j =
  if i <? t then get zero (rows a) i j else zero.
Proof.
  intros Ha Hi Hj.
  pose proof (is_matrix_shape _ _ _ Ha) as Hs.
  apply is_matrix_spec in Ha; destruct Ha as (_ & Hl & _).
  unfold np_pad, get; rewrite Hs; simpl.
  destruct (Nat.ltb_spec i t) as [Hlt|Hge].
  - rewrite app_nth1 by lia; reflexivity.
  - rewrite app_nth2 by lia.
    rewrite (nth_indep _ [] (repeat zero t)) by (rewrite repeat_length; lia).
    rewrite nth_repeat; apply nth_repeat.
Qed.

(** X3. With padding and the default axis, the lag matrix of a [t] by [t]
    matrix has shape [(2t, t)] and [lag[i, j] == rec[i+j, j]] where [i + j]
    is counted modulo [2t] and every position from [t] on is zero: for
    [i < t] an entry past the end of the signal is zero instead of wrapping
    around. *)
Theorem recurrence_to_lag_padded_entries (m : matrix A) (t : nat) :
  is_matrix t t (content m) = true ->
  exists lag,
    recurrence_to_lag zero m true (-1) = Ok (with_content m lag) /\
    is_matrix (t + t) t lag = true /\
    (forall i j, i < t + t -> j < t ->
       get zero (rows lag) i j =
       if (i + j) mod (t + t) <? t
       then get zero (rows (content m)) ((i + j) mod (t + t)) j
       else zero) /\
    (forall i j, i < t -> j < t ->
       get zero (rows lag) i j =
       if i + j <? t then get zero (rows (content m)) (i + j) j else zero).
Proof.
  intros Hm.
  rewrite (recurrence_to_lag_square zero m t 1 true (-1) Hm ltac:(lia) eq_refl).
  pose proof (np_pad_is_matrix zero 1 t (content m) Hm ltac:(lia)) as Hp.
  change (lag_rows 1 t) with (t + t) in Hp; change (lag_cols 1 t) with t in Hp.
  change (1 - 1) with 0 in *.
  set (p := np_pad zero 0 t (content m)) in *.
  destruct (slice_loop zero 1 (t + t) t (fun i v => roll_sparse v (- Z.of_nat i))
              (fun i v _ Hv => eq_trans (roll_sparse_length v _) Hv)
              (seq 1 (t - 1)) p (seq_NoDup _ _)) as [Hlag Hsl];
    [intros i Hi; apply in_seq in Hi; unfold slice_count; simpl; lia | exact Hp |].
  eexists; split; [reflexivity|]; split; [exact Hlag|].
  assert (Hgen : forall i j, i < t + t -> j < t ->
            get zero
              (rows (fold_left
                       (fun lag i =>
                          set_slice 1 i
                            (roll_sparse (get_slice zero 1 i lag) (- Z.of_nat i)) lag)
                       (seq 1 (t - 1)) p)) i j =
            if (i + j) mod (t + t) <? t
            then get zero (rows (content m)) ((i + j) mod (t + t)) j
            else zero).
  { intros i j Hi Hj.
    pose proof (nth_get_slice zero 1 j i) as Hn.
    change (1 =? 0) with false in Hn; cbv iota in Hn.
    rewrite <- Hn, (Hsl j Hj).
    pose proof (get_slice_length zero 1 j (t + t) t p Hp ltac:(discriminate)) as Hlen.
    change (1 =? 0) with false in Hlen; cbv iota in Hlen.
    assert (Hmod : (i + j) mod (t + t) < t + t) by (apply Nat.mod_upper_bound; lia).
    assert (Hval : nth ((i + j) mod (t + t)) (get_slice zero 1 j p) zero =
                   if (i + j) mod (t + t) <? t
                   then get zero (rows (content m)) ((i + j) mod (t + t)) j
                   else zero).
    { rewrite nth_get_slice; change (1 =? 0) with false; cbv iota.
      unfold p; apply get_np_pad_rows; assumption. }
    destruct (in_dec Nat.eq_dec j (seq 1 (t - 1))) as [Hin|Hnot].
    - rewrite nth_roll_sparse by (rewrite Hlen; exact Hi).
      rewrite Hlen.
      replace (Z.of_nat i - - Z.of_nat j)%Z with (Z.of_nat (i + j)) by lia.
      rewrite <- Nat2Z.inj_mod, Nat2Z.id; exact Hval.
    - assert (j = 0) by (destruct (Nat.eq_dec j 0); [assumption|];
                         exfalso; apply Hnot, in_seq; lia).
      subst j; rewrite Nat.add_0_r in *.
      rewrite Nat.mod_small in Hval |- * by exact Hi; exact Hval. }
  split; [exact Hgen|].
  intros i j Hi Hj; rewrite (Hgen i j) by lia.
  rewrite Nat.mod_small by lia; reflexivity.
Qed.

End PaddedEntries.

(** ** Entry-wise functions and the slices of an array *)

Section MapFacts.
Context {A B : Type} (g : A -> B) (zero : A) (zero' : B).

Lemma roll_sparse_map (x : list A) (s : Z) :
  roll_sparse (map g x) s = map g (roll_sparse x s).
Proof.
  unfold roll_sparse; rewrite length_map, map_app, skipn_map, firstn_map.
  reflexivity.
Qed.

Lemma list_update_map {T U} (f : T -> U) (i : nat) (x : T) (l : list T) :
  list_update i (f x) (map f l) = map f (list_update i x l).
Proof.
  revert i; induction l as [|y l IH]; intros [|i]; simpl; try reflexivity.
  rewrite IH; reflexivity.
Qed.

Lemma set_slice_map (ax i : nat) (v : list A) (a : ndarray A) :
  set_slice ax i (map g v) (map_entries g a) = map_entries g (set_slice ax i v a).
Proof.
  unfold set_slice, map_entries; simpl; f_equal.
  destruct (ax =? 0); [apply (list_update_map (map g))|].
  generalize (rows a) as rs; intros rs; revert v.
  induction rs as [|row rs IH]; intros [|x v]; simpl; try reflexivity.
  rewrite IH, (list_update_map g); reflexivity.
Qed.

Lemma get_slice_map (ax i r c : nat) (a : ndarray A) :
  is_matrix r c a = true -> (ax <> 0 -> i < c) ->
  get_slice zero' ax i (map_entries g a) = map g (get_slice zero ax i a).
Proof.
  intros Ha Hi; unfold get_slice, map_entries; simpl.
  destruct (Nat.eqb_spec ax 0) as [_|Hax].
  - apply (map_nth (map g) (rows a) [] i).
  - rewrite !map_map; apply map_ext_in; intros row Hin.
    apply is_matrix_spec in Ha; destruct Ha as (_ & _ & Hr).
    rewrite Forall_forall in Hr.
    rewrite (nth_indep _ zero' (g zero))
      by (rewrite length_map, (Hr _ Hin); apply Hi; exact Hax).
    apply map_nth.
Qed.

Lemma slice_upto_map (ax t : nat) (a : ndarray A) :
  slice_upto ax t (map_entries g a) = map_entries g (slice_upto ax t a).
Proof.
  destruct a as [sh rw]; unfold slice_upto, map_entries; simpl.
  destruct sh as [|r [|c [|? ?]]]; try reflexivity.
  destruct (ax =? 0); simpl; f_equal.
  - apply firstn_map.
  - rewrite !map_map; apply map_ext; intros row; apply firstn_map.
Qed.

Lemma is_matrix_map_entries (r c : nat) (a : ndarray A) :
  is_matrix r c a = true -> is_matrix r c (map_entries g a) = true.
Proof.
  intros Ha; apply is_matrix_spec in Ha; destruct Ha as (Hs & Hl & Hr).
  apply is_matrix_spec; unfold map_entries; simpl; repeat split;
    [assumption | rewrite length_map; assumption |].
  rewrite Forall_forall in *; intros row Hin.
  apply in_map_iff in Hin; destruct Hin as (row' & <- & Hin).
  rewrite length_map; apply Hr; exact Hin.
Qed.

(** The loop of [lag_to_recurrence] commutes with an entry-wise function. *)
Lemma unroll_loop_map (ax r c : nat) (l : ndarray A) (idx : list nat) :
  is_matrix r c l = true ->
  (forall i, In i idx -> i < slice_count ax r c) ->
  forall acc,
    fold_left
      (fun rec i =>
         set_slice ax i
           (roll_sparse (get_slice zero' ax i (map_entries g l)) (Z.of_nat i)) rec)
      idx (map_entries g acc) =
    map_entries g
      (fold_left
         (fun rec i =>
            set_slice ax i (roll_sparse (get_slice zero ax i l) (Z.of_nat i)) rec)
         idx acc).
Proof.
  intros Hl; induction idx as [|i idx IH]; intros Hin acc; simpl; [reflexivity|].
  rewrite (get_slice_map ax i r c l Hl), roll_sparse_map, set_slice_map.
  - apply IH; intros j Hj; apply Hin; right; exact Hj.
  - intros Hax; specialize (Hin i (or_introl eq_refl)).
    unfold slice_count in Hin; destruct (Nat.eqb_spec ax 0); [contradiction | exact Hin].
Qed.

End MapFacts.

Lemma nth_error_list_update {T} (i : nat) (x : T) (l : list T) :
  i < length l -> nth_error (list_update i x l) i = Some x.
Proof.
  revert i; induction l as [|y l IH]; intros [|i] H; simpl in *; try lia; auto.
  apply IH; lia.
Qed.

Section LagOfMap.
Context {A : Type} (zero : A).

(** [lag_to_recurrence] commutes with an entry-wise function on every lag
    matrix of an accepted shape. *)
Lemma lag_to_recurrence_map (g : A -> A) (l : matrix A) (s0 s1 ax : nat) (axis : Z) :
  subscriptable l = true ->
  is_matrix s0 s1 (content l) = true ->
  In axis [0; 1; -1]%Z -> Z.abs axis = Z.of_nat ax ->
  s0 = s1 \/ slice_length ax s0 s1 = 2 * slice_count ax s0 s1 ->
  forall rec,
    lag_to_recurrence zero l axis = Ok rec ->
    lag_to_recurrence zero (map_matrix g l) axis = Ok (map_matrix g rec).
Proof.
  intros Hsub Hl Haxis Habs Hshape rec.
  pose proof (is_matrix_shape _ _ _ Hl) as Hs.
  rewrite (lag_to_recurrence_shaped zero l s0 s1 ax axis Hsub Hs Haxis Habs Hshape).
  intros E; injection E as <-.
  rewrite (lag_to_recurrence_shaped zero (map_matrix g l) s0 s1 ax axis);
    [| unfold map_matrix; rewrite subscriptable_with_content; exact Hsub
     | unfold map_matrix; rewrite content_with_content; exact Hs
     | exact Haxis | exact Habs | exact Hshape].
  unfold map_matrix; rewrite !content_with_content, !with_content_twice.
  rewrite (unroll_loop_map g zero zero ax s0 s1 (content l)) by
    (try exact Hl; intros i Hi; apply in_seq in Hi; lia).
  rewrite slice_upto_map; reflexivity.
Qed.

(** The round trip of either kind, padded or not. *)
Lemma lag_round_trip (m : matrix A) (t : nat) (pad : bool) :
  is_matrix t t (content m) = true ->
  subscriptable m = true ->
  exists lag s0,
    recurrence_to_lag zero m pad (-1) = Ok lag /\
    subscriptable lag = true /\
    is_matrix s0 t (content lag) = true /\
    (s0 = t \/ s0 = 2 * t) /\
    lag_to_recurrence zero lag (-1) = Ok m.
Proof.
  intros Hm Hsub.
  rewrite (recurrence_to_lag_square zero m t 1 pad (-1) Hm ltac:(lia) eq_refl).
  assert (Haxis : In (-1)%Z [0; 1; -1]%Z) by (simpl; tauto).
  assert (Hsub' : forall a : ndarray A, subscriptable (with_content m a) = true)
    by (intros a; rewrite subscriptable_with_content; exact Hsub).
  destruct pad.
  - destruct (round_trip_content zero 1 t (content m) Hm ltac:(lia)) as [Hshape Hback].
    pose proof (np_pad_is_matrix zero 1 t (content m) Hm ltac:(lia)) as Hp.
    pose proof (to_lag_loop_is_matrix zero 1 (lag_rows 1 t) (lag_cols 1 t) t _ Hp
                  ltac:(unfold slice_count, lag_rows, lag_cols; simpl; lia)) as Hlag.
    change (lag_rows 1 t) with (t + t) in *; change (lag_cols 1 t) with t in *.
    eexists; exists (t + t); split; [reflexivity|].
    rewrite content_with_content.
    split; [apply Hsub'|]; split; [exact Hlag|]; split; [right; lia|].
    rewrite (lag_to_recurrence_shaped zero _ (t + t) t 1 (-1));
      [| apply Hsub'
       | rewrite content_with_content; exact Hshape | exact Haxis | reflexivity
       | right; unfold slice_length, slice_count; simpl; lia].
    rewrite content_with_content, with_content_twice.
    change (slice_count 1 (t + t) t) with t.
    rewrite Hback, with_content_same; reflexivity.
  - pose proof (to_lag_loop_is_matrix zero 1 t t t (content m) Hm
                  ltac:(unfold slice_count; simpl; lia)) as Hlag.
    eexists; exists t; split; [reflexivity|].
    rewrite content_with_content.
    split; [apply Hsub'|]; split; [exact Hlag|]; split; [left; reflexivity|].
    rewrite (lag_to_recurrence_shaped zero _ t t 1 (-1));
      [| apply Hsub'
       | rewrite content_with_content; apply (is_matrix_shape _ _ _ Hlag)
       | exact Haxis | reflexivity | left; reflexivity].
    rewrite content_with_content, with_content_twice.
    change (slice_count 1 t t) with t.
    pose proof (roll_unroll zero 1 t t t (content m) Hm
                  ltac:(unfold slice_count; simpl; lia)) as E.
    cbv zeta in E; rewrite E.
    rewrite (slice_upto_all (1 - 1) t t t (content m) Hm)
      by (unfold slice_count; simpl; lia).
    rewrite with_content_same; reflexivity.
Qed.

End LagOfMap.

(** ** timelag_filter *)

Section TimelagFilterFacts.
Context {A kwargs : Type} (zero : A).

Lemma list_position_bound {T} (l : list T) (i : Z) (pos : nat) :
  list_position l i = Ok pos -> pos < length l.
Proof.
  unfold list_position.
  destruct ((_ <? 0)%Z || (_ <=? _)%Z) eqn:E; [discriminate|].
  apply orb_false_iff in E; destruct E as [E1 E2].
  apply Z.ltb_ge in E1; apply Z.leb_gt in E2.
  intros H; injection H as <-; lia.
Qed.

(** X4. A filter that applies one function to every entry of its data argument
    and is wrapped by [timelag_filter] still applies that function to every
    entry: the result on a square matrix that can be subscripted (an ndarray
    or a sparse matrix in csr, csc, lil or dok format) is the entry-wise image
    of the input, with or without padding.  In particular the wrapped
    identity filter returns its input. *)
Theorem timelag_filter_pointwise (g : A -> A) (pad : bool) (index : Z)
    (args : list (matrix A)) (kw : kwargs) (pos t : nat) (data : matrix A) :
  list_position args index = Ok pos ->
  nth_error args pos = Some data ->
  is_matrix t t (content data) = true ->
  subscriptable data = true ->
  timelag_filter zero
    (fun args' _ =>
       match nth_error args' pos with
       | Some x => Ok (map_matrix g x)
       | None => Raise IndexError
       end)
    pad index args kw = Ok (map_matrix g data) /\
  timelag_filter zero
    (fun args' _ =>
       match nth_error args' pos with
       | Some x => Ok x
       | None => Raise IndexError
       end)
    pad index args kw = Ok data.
Proof.
  intros Hpos Hdata Hm Hsub.
  pose proof (list_position_bound args index pos Hpos) as Hlt.
  destruct (lag_round_trip zero data t pad Hm Hsub)
    as (lag & s0 & Hlag & Hsl & Hwf & Hs0 & Hback).
  unfold timelag_filter; rewrite Hpos; simpl bind; rewrite Hdata, Hlag; simpl bind.
  rewrite (nth_error_list_update pos lag args Hlt); simpl bind.
  split; [|exact Hback].
  apply (lag_to_recurrence_map zero g lag s0 t 1 (-1) Hsl Hwf);
    [simpl; tauto | reflexivity | | exact Hback].
  unfold slice_length, slice_count; simpl; lia.
Qed.

(** X5. Whatever the wrapped filter is, [timelag_filter] raises IndexError
    when [index] lies outside the positional arguments and ParameterError when
    the data argument is not a square matrix; the filter's result plays no
    part. *)
Theorem timelag_filter_errors
    (function : list (matrix A) -> kwargs -> result (matrix A))
    (pad : bool) (index : Z) (args : list (matrix A)) (kw : kwargs) :
  ((index < - Z.of_nat (length args) \/ Z.of_nat (length args) <= index)%Z ->
   timelag_filter zero function pad index args kw = Raise IndexError) /\
  (forall pos data,
     list_position args index = Ok pos ->
     nth_error args pos = Some data ->
     (forall s, shape (content data) <> [s; s]) ->
     timelag_filter zero function pad index args kw = Raise ParameterError).
Proof.
  split.
  - intros Hout; unfold timelag_filter, list_position.
    destruct (Z.ltb_spec index 0) as [Hneg|Hnn].
    + destruct (Z.ltb_spec (Z.of_nat (length args) + index) 0); [reflexivity | lia].
    + destruct (Z.ltb_spec index 0); [lia|].
      destruct (Z.leb_spec (Z.of_nat (length args)) index); [reflexivity | lia].
  - intros pos data Hpos Hdata Hns.
    unfold timelag_filter; rewrite Hpos; simpl bind; rewrite Hdata.
    rewrite (recurrence_to_lag_non_square zero data pad (-1) Hns); reflexivity.
Qed.

End TimelagFilterFacts.

(** ** The links kept by the top-k loop *)

Lemma in_combine_seq (vals : list R) (o : nat) :
  o < length vals ->
  In (o, nth o vals 0%R) (combine (seq 0 (length vals)) vals).
Proof.
  intros Ho.
  assert (Hlen : length (seq 0 (length vals)) = length vals) by apply length_seq.
  pose proof (combine_nth (seq 0 (length vals)) vals o 0 0%R Hlen) as E.
  rewrite seq_nth in E by exact Ho; simpl in E; rewrite <- E.
  apply nth_In; rewrite length_combine, Hlen, Nat.min_id; exact Ho.
Qed.

Lemma in_argsort (vals : list R) (o : nat) :
  o < length vals -> In o (argsort vals).
Proof.
  intros Ho; unfold argsort.
  apply in_map_iff; exists (o, nth o vals 0%R); split; [reflexivity|].
  apply in_sort_by, in_combine_seq; exact Ho.
Qed.

Lemma in_nonzero_cols (row : list R) (j : nat) :
  In j (nonzero_cols row) <-> j < length row /\ Rnonzero (nth j row 0%R) = true.
Proof.
  unfold nonzero_cols; rewrite filter_In, in_seq; intuition lia.
Qed.

(** After its pass of the loop a row holds at most [k] links. *)
Lemma prune_row_at_most_k (k : Z) (row : list R) :
  (0 <= k)%Z -> length (nonzero_cols (prune_row k row)) <= Z.to_nat k.
Proof.
  intros Hk.
  set (links := nonzero_cols row).
  set (idx := map (fun o => nth o links O)
                (argsort (map (fun j => nth j row 0%R) links))).
  assert (Hidx : forall j, In j links -> In j idx).
  { intros j Hj; destruct (In_nth _ _ O Hj) as (o & Ho & <-).
    unfold idx; apply in_map_iff; exists o; split; [reflexivity|].
    apply in_argsort; rewrite length_map; exact Ho. }
  assert (Hincl : incl (nonzero_cols (prune_row k row)) (firstn (Z.to_nat k) idx)).
  { intros j Hj; apply in_nonzero_cols in Hj; destruct Hj as [Hlt Hnz].
    rewrite prune_row_length in Hlt.
    unfold prune_row in Hnz; fold links in Hnz; fold idx in Hnz.
    set (f := fun j : nat => if existsb (Nat.eqb j) (slice_from k idx) then 0%R
                             else nth j row 0%R) in Hnz.
    rewrite (nth_indep _ 0%R (f 0)) in Hnz
      by (rewrite length_map, length_seq; exact Hlt).
    rewrite (map_nth f (seq 0 (length row)) 0 j), seq_nth in Hnz by exact Hlt.
    simpl in Hnz; unfold f in Hnz.
    destruct (existsb (Nat.eqb j) (slice_from k idx)) eqn:Ex;
      [rewrite Rnonzero_0 in Hnz; discriminate|].
    assert (Hin : In j idx)
      by (apply Hidx, in_nonzero_cols; split; assumption).
    rewrite <- (firstn_skipn (Z.to_nat k) idx) in Hin.
    apply in_app_or in Hin; destruct Hin as [Hin|Hin]; [exact Hin|].
    exfalso.
    assert (Ex' : existsb (Nat.eqb j) (slice_from k idx) = true).
    { apply existsb_exists; exists j; split; [|apply Nat.eqb_refl].
      unfold slice_from; destruct (Z.ltb_spec k 0); [lia | exact Hin]. }
    congruence. }
  assert (Hnd : NoDup (nonzero_cols (prune_row k row)))
    by (apply NoDup_filter, seq_NoDup).
  pose proof (NoDup_incl_length Hnd Hincl) as Hle.
  rewrite length_firstn in Hle; lia.
Qed.

(** The loop prunes every row exactly once, from the row's own contents. *)
Lemma retain_top_k_row (t : nat) (k : Z) (a : ndarray R) (i : nat) :
  is_matrix t t a = true -> i < t ->
  nth i (rows (retain_top_k t k a)) [] = prune_row k (nth i (rows a) []).
Proof.
  intros Ha Hi; unfold retain_top_k.
  assert (Hlen : length (rows a) = t) by (apply is_matrix_spec in Ha; tauto).
  assert (Hgen : forall idx acc, NoDup idx -> length (rows acc) = t ->
            nth i (rows (fold_left
                           (fun rec x =>
                              mk_ndarray (shape rec)
                                (list_update x (prune_row k (nth x (rows rec) []))
                                   (rows rec)))
                           idx acc)) [] =
            if in_dec Nat.eq_dec i idx then prune_row k (nth i (rows acc) [])
            else nth i (rows acc) []).
  { induction idx as [|x idx IH]; intros acc Hnd Hl; simpl; [reflexivity|].
    inversion Hnd as [|? ? Hnotin Hnd']; subst.
    rewrite IH by (simpl; rewrite ?list_update_length; assumption); simpl.
    destruct (Nat.eq_dec x i) as [->|Hxi].
    - destruct (in_dec Nat.eq_dec i idx); [contradiction|].
      apply nth_list_update_eq; lia.
    - rewrite nth_list_update_neq by exact Hxi.
      destruct (in_dec Nat.eq_dec i idx); reflexivity. }
  rewrite (Hgen (seq 0 t) a (seq_NoDup _ _) Hlen).
  destruct (in_dec Nat.eq_dec i (seq 0 t)) as [_|Hn]; [reflexivity|].
  exfalso; apply Hn, in_seq; lia.
Qed.

(** ** More on recurrence_matrix *)

Lemma float_nonzero_affinity (bw : float) (v : R) :
  float_nonzero (affinity_value bw v) = Rnonzero v.
Proof.
  unfold affinity_value; destruct (Rnonzero v) eqn:E; simpl; [|apply Rnonzero_0].
  destruct bw as [|b]; simpl; [reflexivity|].
  apply Rnonzero_true; pose proof (exp_pos ((if Rltb v 0 then 0 else v) / (-1 * b))); lra.
Qed.

Lemma Rnonzero_Rmin (a b : R) :
  a = b \/ (0 <= a /\ 0 <= b)%R ->
  Rnonzero (Rmin a b) = Rnonzero a && Rnonzero b.
Proof.
  intros [->|[Ha Hb]].
  - rewrite Rmin_left by lra; destruct (Rnonzero b); reflexivity.
  - unfold Rnonzero.
    destruct (Req_dec_T a 0) as [->|Na]; simpl.
    + rewrite Rmin_left by lra.
      destruct (Req_dec_T 0 0); [reflexivity | contradiction].
    + destruct (Req_dec_T b 0) as [->|Nb].
      * rewrite Rmin_right by lra.
        destruct (Req_dec_T 0 0); [reflexivity | contradiction].
      * destruct (Req_dec_T (Rmin a b) 0) as [E|_]; [|reflexivity].
        exfalso; unfold Rmin in E; destruct (Rle_dec a b); lra.
Qed.

Section RecurrenceExtras.
Variable t : nat.
Variable kneighbors_graph : Z -> string -> list (list R).

(** The result of a valid call, read entry by entry off the graph. *)
Lemma recurrence_matrix_entries (k : option Z) (width : Z) (sym sparse : bool)
    (mode : string) (bandwidth : option R) (self : bool) :
  valid_parameters t width mode bandwidth ->
  let g :=
    recurrence_graph t kneighbors_graph (neighbours t k width) width sym mode self in
  exists out,
    recurrence_matrix t kneighbors_graph k width sym sparse mode bandwidth self
    = Ok out /\
    well_shaped t sparse mode out /\
    (forall i j, i < t -> j < t ->
       nonzero_at out i j = Rnonzero (get 0%R (rows g) i j)) /\
    (forall i, i < t ->
       diagonal_entry out i =
       if String.eqb mode "connectivity"
       then inr (Rnonzero (get 0%R (rows g) i i))
       else if String.eqb mode "affinity"
            then inl (affinity_value (affinity_bandwidth bandwidth g)
                        (get 0%R (rows g) i i))
            else inl (Fin (get 0%R (rows g) i i))).
Proof.
  intros Hv g.
  rewrite (recurrence_matrix_valid t kneighbors_graph k width sym sparse mode
             bandwidth self Hv); fold g.
  destruct Hv as (Hw & Hmode & _).
  destruct (recurrence_graph_spec t kneighbors_graph (neighbours t k width)
              width sym mode self ltac:(lia)) as [Hg _]; fold g in Hg.
  simpl in Hmode; destruct Hmode as [<-|[<-|[<-|[]]]]; simpl String.eqb; cbv iota.
  - exists (BoolRec (if sparse then Sparse csr (map_entries Rnonzero g)
                     else Dense (map_entries Rnonzero g))).
    split; [reflexivity|].
    assert (Hc : content (if sparse then Sparse csr (map_entries Rnonzero g)
                          else Dense (map_entries Rnonzero g))
                 = map_entries Rnonzero g) by (destruct sparse; reflexivity).
    unfold well_shaped, nonzero_at, diagonal_entry; rewrite Hc.
    split; [|split].
    + split; [reflexivity|]; split;
        [apply is_matrix_map_entries; exact Hg | reflexivity].
    + intros i j Hi Hj; apply (get_map_entries 0%R false Rnonzero t t g i j Hg Hi Hj).
    + intros i Hi; f_equal.
      apply (get_map_entries 0%R false Rnonzero t t g i i Hg Hi Hi).
  - exists (FloatRec (if sparse then Sparse csr (map_entries Fin g)
                      else Dense (map_entries Fin g))).
    split; [reflexivity|].
    assert (Hc : content (if sparse then Sparse csr (map_entries Fin g)
                          else Dense (map_entries Fin g))
                 = map_entries Fin g) by (destruct sparse; reflexivity).
    unfold well_shaped, nonzero_at, diagonal_entry; rewrite Hc.
    split; [|split].
    + split; [discriminate|]; split;
        [apply is_matrix_map_entries; exact Hg | reflexivity].
    + intros i j Hi Hj.
      rewrite (get_map_entries 0%R (Fin 0) Fin t t g i j Hg Hi Hj); reflexivity.
    + intros i Hi; f_equal.
      apply (get_map_entries 0%R (Fin 0) Fin t t g i i Hg Hi Hi).
  - set (bw := affinity_bandwidth bandwidth g).
    exists (FloatRec (if sparse then Sparse csr (map_entries (affinity_value bw) g)
                      else Dense (map_entries (affinity_value bw) g))).
    split; [reflexivity|].
    assert (Hc : content (if sparse then Sparse csr (map_entries (affinity_value bw) g)
                          else Dense (map_entries (affinity_value bw) g))
                 = map_entries (affinity_value bw) g) by (destruct sparse; reflexivity).
    unfold well_shaped, nonzero_at, diagonal_entry; rewrite Hc.
    split; [|split].
    + split; [discriminate|]; split;
        [apply is_matrix_map_entries; exact Hg | reflexivity].
    + intros i j Hi Hj.
      rewrite (get_map_entries 0%R (Fin 0) (affinity_value bw) t t g i j Hg Hi Hj).
      apply float_nonzero_affinity.
    + intros i Hi; f_equal.
      apply (get_map_entries 0%R (Fin 0) (affinity_value bw) t t g i i Hg Hi Hi).
Qed.

End RecurrenceExtras.

Section RecurrenceExtraTheorems.
Variable t : nat.
Variable kneighbors_graph : Z -> string -> list (list R).



(** X8. In connectivity and distance modes [sym=True] links exactly the
    mutual neighbours: with non-negative distances, an entry of the
    symmetrized matrix is non-zero if and only if the entries at [(i, j)] and
    at [(j, i)] of the matrix built with [sym=False] are both non-zero.
    (Affinity mode is left out: there the entries go through [np.exp] with a
    bandwidth that depends on [sym].) *)
Theorem recurrence_matrix_mutual_links (k : option Z) (width : Z)
    (sparse : bool) (mode : string) (bandwidth : option R) (self : bool) :
  valid_parameters t width mode bandwidth ->
  mode <> "affinity"%string ->
  nonnegative_distances kneighbors_graph ->
  exists mutual out,
    recurrence_matrix t kneighbors_graph k width true sparse mode bandwidth self
    = Ok mutual /\
    recurrence_matrix t kneighbors_graph k width false sparse mode bandwidth self
    = Ok out /\
    forall i j, i < t -> j < t ->
      nonzero_at mutual i j = nonzero_at out i j && nonzero_at out j i.
Proof.
  intros Hv _ Hnn.
  destruct (recurrence_matrix_entries t kneighbors_graph k width true sparse mode
              bandwidth self Hv) as (mutual & Hmutual & _ & Hm & _).
  destruct (recurrence_matrix_entries t kneighbors_graph k width false sparse mode
              bandwidth self Hv) as (out & Hout & _ & Ho & _).
  exists mutual, out; split; [exact Hmutual|]; split; [exact Hout|].
  intros i j Hi Hj.
  rewrite (Hm i j Hi Hj), (Ho i j Hi Hj), (Ho j i Hj Hi).
  destruct Hv as (Hw & _ & _).
  destruct (recurrence_graph_spec t kneighbors_graph (neighbours t k width)
              width false mode self ltac:(lia)) as [Hg He].
  set (g := recurrence_graph t kneighbors_graph (neighbours t k width)
              width false mode self) in *.
  change (recurrence_graph t kneighbors_graph (neighbours t k width)
            width true mode self) with (symmetrize true g).
  destruct (symmetrize_spec t true g Hg) as [_ Hs].
  rewrite (Hs i j Hi Hj).
  apply Rnonzero_Rmin.
  destruct (Nat.eq_dec i j) as [->|Hij]; [left; reflexivity|].
  right; split.
  - destruct (He i j Hi Hj) as (_ & _ & H & _); apply H; assumption.
  - destruct (He j i Hj Hi) as (_ & _ & H & _); apply H; auto.
Qed.

(** X9. The main diagonal is as the docstring of [self] says: with
    [self=True] it holds [True] in connectivity mode, 1 in affinity mode (when
    the bandwidth is a number) and 0 in distance mode; with [self=False] it is
    empty. *)
Theorem recurrence_matrix_diagonal (k : option Z) (width : Z)
    (sym sparse : bool) (mode : string) (bandwidth : option R) (self : bool) :
  valid_parameters t width mode bandwidth ->
  (mode = "affinity"%string ->
   bandwidth_defined t kneighbors_graph k width sym mode bandwidth self) ->
  exists out,
    recurrence_matrix t kneighbors_graph k width sym sparse mode bandwidth self
    = Ok out /\
    forall i, i < t ->
      diagonal_entry out i =
      if String.eqb mode "connectivity" then inr self
      else if String.eqb mode "affinity"
           then inl (Fin (if self then 1 else 0))
           else inl (Fin 0).
Proof.
  intros Hv Hbw.
  destruct (recurrence_matrix_entries t kneighbors_graph k width sym sparse mode
              bandwidth self Hv) as (out & Hout & _ & _ & Hd).
  exists out; split; [exact Hout|].
  intros i Hi; rewrite (Hd i Hi).
  destruct Hv as (Hw & Hmode & _).
  destruct (recurrence_graph_spec t kneighbors_graph (neighbours t k width)
              width sym mode self ltac:(lia)) as [_ He].
  destruct (He i i Hi Hi) as (Hdiag & _).
  rewrite (Hdiag eq_refl); unfold self_value.
  unfold bandwidth_defined in Hbw.
  simpl in Hmode; destruct Hmode as [<-|[<-|[<-|[]]]]; simpl String.eqb in *;
    cbv iota.
  - destruct self; [rewrite Rnonzero_1 | rewrite Rnonzero_0]; reflexivity.
  - destruct self; reflexivity.
  - specialize (Hbw eq_refl).
    destruct self; [rewrite affinity_value_sentinel | rewrite affinity_value_0];
      [|reflexivity].
    destruct (affinity_bandwidth bandwidth _); [contradiction | reflexivity].
Qed.

(** X10. Every point keeps at most [k] links: with non-negative distances and
    [k >= 0] (the default is), every row of the returned matrix has at most
    [k] non-zero entries off the main diagonal. *)
Theorem recurrence_matrix_at_most_k_links (k : option Z) (width : Z)
    (sym sparse : bool) (mode : string) (bandwidth : option R) (self : bool) :
  valid_parameters t width mode bandwidth ->
  nonnegative_distances kneighbors_graph ->
  (0 <= neighbours t k width)%Z ->
  exists out,
    recurrence_matrix t kneighbors_graph k width sym sparse mode bandwidth self
    = Ok out /\
    forall i, i < t ->
      length (links_of t out i) <= Z.to_nat (neighbours t k width).
Proof.
  intros Hv Hnn Hk.
  destruct (recurrence_matrix_entries t kneighbors_graph k width sym sparse mode
              bandwidth self Hv) as (out & Hout & _ & Hnz & _).
  exists out; split; [exact Hout|].
  intros i Hi.
  destruct Hv as (Hw & _ & _).
  set (kk := neighbours t k width) in *.
  set (n := Z.min (Z.of_nat t - 1) (kk + 2 * width)).
  set (km := if String.eqb mode "affinity" then "distance"%string else mode).
  destruct (remove_within_width_spec t width (kneighbors_graph n km) ltac:(lia))
    as [H1 G1].
  set (r1 := remove_within_width width (mk_ndarray [t; t] (kneighbors_graph n km))) in *.
  destruct (retain_top_k_spec t kk r1 H1) as [H2 G2].
  set (r2 := retain_top_k t kk r1) in *.
  assert (D2 : forall x, x < t -> get 0%R (rows r2) x x = 0%R).
  { intros x Hx; destruct (G2 x x) as [E|E]; [|exact E].
    rewrite E, (G1 x x Hx Hx), Z.sub_diag; simpl.
    destruct (Z.ltb_spec 0 width); [reflexivity | lia]. }
  assert (N2 : forall x y, x < t -> y < t -> (0 <= get 0%R (rows r2) x y)%R).
  { intros x y Hx Hy; destruct (G2 x y) as [E|E]; rewrite E; [|lra].
    rewrite (G1 x y Hx Hy).
    destruct (Z.abs (Z.of_nat x - Z.of_nat y) <? width)%Z; [lra | apply Hnn]. }
  destruct (self_links_spec t self mode r2 H2 D2) as [H3 G3].
  set (r3 := self_links self mode r2) in *.
  destruct (symmetrize_spec t sym r3 H3) as [_ G4].
  change (recurrence_graph t kneighbors_graph kk width sym mode self)
    with (symmetrize sym r3) in Hnz.
  assert (Hincl : incl (links_of t out i) (nonzero_cols (nth i (rows r2) []))).
  { intros j Hj; unfold links_of in Hj.
    apply filter_In in Hj; destruct Hj as [Hj Hb].
    apply in_seq in Hj; assert (Hjt : j < t) by lia.
    apply andb_true_iff in Hb; destruct Hb as [Hne Hb].
    apply negb_true_iff, Nat.eqb_neq in Hne.
    rewrite (Hnz i j Hi Hjt), (G4 i j Hi Hjt) in Hb.
    apply in_nonzero_cols; split;
      [rewrite (is_matrix_row t t r2 H2 i Hi); exact Hjt|].
    change (nth j (nth i (rows r2) []) 0%R) with (get 0%R (rows r2) i j).
    rewrite (G3 i j Hi Hjt), (G3 j i Hjt Hi) in Hb.
    destruct (Nat.eqb_spec i j) as [E|_]; [congruence|].
    destruct (Nat.eqb_spec j i) as [E|_]; [congruence|].
    destruct sym; [|exact Hb].
    rewrite Rnonzero_Rmin in Hb by (right; split; apply N2; assumption).
    apply andb_true_iff in Hb; tauto. }
  assert (Hnd : NoDup (links_of t out i)) by (apply NoDup_filter, seq_NoDup).
  pose proof (NoDup_incl_length Hnd Hincl) as Hle.
  unfold r2 in Hle; rewrite (retain_top_k_row t kk r1 i H1 Hi) in Hle.
  pose proof (prune_row_at_most_k kk (nth i (rows r1) []) Hk); lia.
Qed.

End RecurrenceExtraTheorems.

(** ** More on path_enhance *)

Lemma np_maximum_spec (r c : nat) (a b : ndarray R) :
  is_matrix r c a = true -> is_matrix r c b = true ->
  is_matrix r c (np_maximum a b) = true /\
  forall i j, i < r -> j < c ->
    get 0%R (rows (np_maximum a b)) i j =
    Rmax (get 0%R (rows a) i j) (get 0%R (rows b) i j).
Proof.
  intros Ha Hb.
  pose proof (is_matrix_row r c a Ha) as Hra.
  pose proof (is_matrix_row r c b Hb) as Hrb.
  apply is_matrix_spec in Ha, Hb.
  destruct Ha as (Hsa & Hla & _), Hb as (Hsb & Hlb & _).
  split.
  - apply is_matrix_spec; unfold np_maximum; simpl; repeat split;
      [assumption | rewrite map2_length; lia |].
    apply Forall_forall; intros row Hin.
    destruct (In_nth _ _ [] Hin) as (i & Hi & <-).
    rewrite map2_length in Hi by lia.
    rewrite (nth_map2 _ _ _ _ [] []) by lia.
    rewrite map2_length; rewrite Hra, ?Hrb; lia.
  - intros i j Hi Hj; unfold np_maximum, get; simpl.
    rewrite (nth_map2 _ _ _ _ [] []) by lia.
    apply nth_map2; rewrite ?Hra, ?Hrb; lia.
Qed.

Section PathEnhanceExtras.
Context {window kernel kwargs : Type}.
Variable diagonal_filter : window -> Z -> R -> bool -> kernel.
Variable convolve : ndarray R -> kernel -> kwargs -> ndarray R.

Lemma smooth_maximum (R_ : ndarray R) (n : Z) (win : window) (zero_mean : bool)
    (kw : kwargs) (r c : nat) :
  (forall ker, is_matrix r c (convolve R_ ker kw) = true) ->
  forall (ratios : list R) (acc : ndarray R),
    is_matrix r c acc = true ->
    exists out,
      fold_left
        (fun R_smooth ratio =>
           match R_smooth with
           | None => Some (convolve R_ (diagonal_filter win n ratio zero_mean) kw)
           | Some acc =>
               Some (np_maximum acc
                       (convolve R_ (diagonal_filter win n ratio zero_mean) kw))
           end)
        ratios (Some acc) = Some out /\
      is_matrix r c out = true /\
      forall i j, i < r -> j < c ->
        (get 0 (rows acc) i j <= get 0 (rows out) i j)%R /\
        (forall ratio, In ratio ratios ->
           (get 0 (rows (convolve R_ (diagonal_filter win n ratio zero_mean) kw)) i j
            <= get 0 (rows out) i j)%R) /\
        (get 0%R (rows out) i j = get 0%R (rows acc) i j \/
         exists ratio, In ratio ratios /\
           get 0%R (rows out) i j =
           get 0%R (rows (convolve R_ (diagonal_filter win n ratio zero_mean) kw)) i j).
Proof.
  intros Hconv; induction ratios as [|x ratios IH]; intros acc Hacc; simpl.
  - exists acc; split; [reflexivity|]; split; [exact Hacc|].
    intros i j Hi Hj; split; [lra|]; split; [tauto | left; reflexivity].
  - set (cx := convolve R_ (diagonal_filter win n x zero_mean) kw).
    destruct (np_maximum_spec r c acc cx Hacc (Hconv _)) as [Hm Hg].
    destruct (IH (np_maximum acc cx) Hm) as (out & Hout & Hwf & Hout').
    exists out; split; [exact Hout|]; split; [exact Hwf|].
    intros i j Hi Hj.
    destruct (Hout' i j Hi Hj) as (H1 & H2 & H3).
    rewrite (Hg i j Hi Hj) in H1, H3.
    pose proof (Rmax_l (get 0%R (rows acc) i j) (get 0%R (rows cx) i j)).
    pose proof (Rmax_r (get 0%R (rows acc) i j) (get 0%R (rows cx) i j)).
    split; [lra|]; split.
    + intros ratio [<-|Hin]; [fold cx; lra | apply H2; exact Hin].
    + destruct H3 as [H3|(ratio & Hin & H3)].
      * rewrite H3; unfold Rmax; destruct (Rle_dec _ _);
          [right; exists x; split; [left; reflexivity | reflexivity] | left; reflexivity].
      * right; exists ratio; split; [right; exact Hin | exact H3].
Qed.

(** X14. With [clip=False] and a convolution that returns arrays of one shape,
    the result is the point-wise maximum of the convolutions of [R] with the
    kernels of all slope ratios: no response exceeds it and one attains it. *)
Theorem path_enhance_pointwise_maximum (R_ : ndarray R) (n : Z) (win : window)
    (max_ratio : R) (min_ratio : option R) (n_filters : Z) (zero_mean : bool)
    (kw : kwargs) (r c : nat) :
  (0 < max_ratio)%R ->
  (forall m, min_ratio = Some m -> (0 < m <= max_ratio)%R) ->
  (1 <= n_filters)%Z ->
  (forall ker, is_matrix r c (convolve R_ ker kw) = true) ->
  exists ratios out,
    slope_ratios max_ratio min_ratio n_filters = Ok ratios /\
    path_enhance diagonal_filter convolve R_ n win max_ratio min_ratio n_filters
      zero_mean false kw = Ok (Some out) /\
    is_matrix r c out = true /\
    forall i j, i < r -> j < c ->
      (forall ratio, In ratio ratios ->
         (get 0 (rows (convolve R_ (diagonal_filter win n ratio zero_mean) kw)) i j
          <= get 0 (rows out) i j)%R) /\
      (exists ratio, In ratio ratios /\
         get 0%R (rows out) i j =
         get 0%R (rows (convolve R_ (diagonal_filter win n ratio zero_mean) kw)) i j).
Proof.
  intros Hmax Hmin Hn Hconv; unfold path_enhance.
  pose proof (slope_ratios_ok max_ratio min_ratio (Z.to_nat n_filters) Hmax
                (fun m Hm => proj2 (Hmin m Hm))) as E.
  rewrite Z2Nat.id in E by lia; cbv zeta in E; rewrite E; unfold bind.
  set (ratios := map (Rpower 2) _).
  assert (Hne : ratios <> []).
  { intros Er; apply (f_equal (@length R)) in Er.
    unfold ratios in Er; rewrite length_map, linspace_length in Er.
    simpl in Er; lia. }
  destruct ratios as [|x rs]; [congruence|]; simpl fold_left.
  set (cx := convolve R_ (diagonal_filter win n x zero_mean) kw).
  destruct (smooth_maximum R_ n win zero_mean kw r c Hconv rs cx (Hconv _))
    as (out & Hout & Hwf & Hout').
  exists (x :: rs), out; split; [reflexivity|].
  split; [rewrite Hout; reflexivity|]; split; [exact Hwf|].
  intros i j Hi Hj; destruct (Hout' i j Hi Hj) as (H1 & H2 & H3); split.
  - intros ratio [<-|Hin]; [exact H1 | apply H2; exact Hin].
  - destruct H3 as [H3|(ratio & Hin & H3)].
    + exists x; split; [left; reflexivity | exact H3].
    + exists ratio; split; [right; exact Hin | exact H3].
Qed.

End PathEnhanceExtras.

(* ================================================================= *)
(** ** agglomerative and subsegment: the boundaries *)

Lemma sorted_seq (a n : nat) : StronglySorted lt (seq a n).
Proof.
  revert a; induction n as [|n IH]; intros a; simpl; constructor.
  - apply IH.
  - apply Forall_forall; intros x Hx; apply in_seq in Hx; lia.
Qed.

Lemma sorted_filter (f : nat -> bool) (l : list nat) :
  StronglySorted lt l -> StronglySorted lt (filter f l).
Proof.
  induction 1 as [|a l Hs IH Ha]; simpl; [constructor|].
  destruct (f a); [constructor|]; auto.
  rewrite Forall_forall in *; intros x Hx; apply filter_In in Hx.
  apply Ha, Hx.
Qed.

Lemma sorted_map (g : nat -> nat) (l : list nat) :
  (forall x y, x < y -> g x < g y) ->
  StronglySorted lt l -> StronglySorted lt (map g l).
Proof.
  intros Hg; induction 1 as [|a l Hs IH Ha]; simpl; constructor; auto.
  rewrite Forall_forall in *; intros y Hy; apply in_map_iff in Hy.
  destruct Hy as (x & <- & Hx); apply Hg, Ha, Hx.
Qed.

Lemma sorted_app (l1 l2 : list nat) :
  StronglySorted lt l1 -> StronglySorted lt l2 ->
  (forall x y, In x l1 -> In y l2 -> x < y) ->
  StronglySorted lt (l1 ++ l2).
Proof.
  induction 1 as [|a l Hs IH Ha]; intros H2 Hlt; simpl; [exact H2|].
  constructor.
  - apply IH; [exact H2|]; intros x y Hx Hy; apply Hlt; [right|]; assumption.
  - rewrite Forall_forall in *; intros x Hx; apply in_app_or in Hx.
    destruct Hx as [Hx|Hx]; [apply Ha, Hx | apply Hlt; [left; reflexivity | exact Hx]].
Qed.

Lemma np_diff_length (l : list Z) : length (np_diff l) = length l - 1.
Proof.
  unfold np_diff; induction l as [|a [|b l] IH]; simpl in *; try reflexivity.
  rewrite IH; lia.
Qed.

Lemma nth_np_diff (l : list Z) (i : nat) :
  i + 1 < length l ->
  nth i (np_diff l) 0%Z = (nth (i + 1) l 0 - nth i l 0)%Z.
Proof.
  intros Hi; unfold np_diff.
  rewrite (nth_map2 _ l (tl l) i 0%Z 0%Z 0%Z).
  - destruct l as [|a l]; simpl in *; [lia|].
    replace (i + 1) with (S i) by lia; reflexivity.
  - lia.
  - rewrite length_tl; lia.
Qed.

Lemma in_np_nonzero (l : list Z) (i : nat) :
  In i (np_nonzero l) <-> i < length l /\ nth i l 0%Z <> 0%Z.
Proof.
  unfold np_nonzero; rewrite filter_In, in_seq, negb_true_iff, Z.eqb_neq.
  split; intros [H1 H2]; split; auto; lia.
Qed.

Lemma sorted_np_nonzero (l : list Z) : StronglySorted lt (np_nonzero l).
Proof. apply sorted_filter, sorted_seq. Qed.

(** The change points of a sequence of labels. *)
Lemma in_change_points (labels : list Z) (b : nat) :
  In b (map (fun i => 1 + i) (np_nonzero (np_diff labels))) <->
  0 < b < length labels /\ nth b labels 0%Z <> nth (b - 1) labels 0%Z.
Proof.
  rewrite in_map_iff; split.
  - intros (i & <- & Hi); apply in_np_nonzero in Hi.
    rewrite np_diff_length in Hi; destruct Hi as [Hi Hd].
    rewrite nth_np_diff in Hd by lia.
    replace (1 + i - 1) with i by lia; replace (1 + i) with (i + 1) by lia.
    split; [lia|]; intros E; apply Hd; rewrite E; lia.
  - intros [Hb Hd]; exists (b - 1); split; [lia|].
    apply in_np_nonzero; rewrite np_diff_length; split; [lia|].
    rewrite nth_np_diff by lia.
    replace (b - 1 + 1) with b by lia; lia.
Qed.

Lemma filter_length {T} (f : T -> bool) (s : list T) :
  length (filter f s) <= length s.
Proof.
  induction s as [|a s IH]; simpl; [lia|]; destruct (f a); simpl; lia.
Qed.

Lemma np_nonzero_length (l : list Z) : length (np_nonzero l) <= length l.
Proof.
  unfold np_nonzero.
  pose proof (filter_length (fun i => negb (nth i l 0 =? 0)%Z) (seq 0 (length l))) as H.
  rewrite length_seq in H; exact H.
Qed.

Lemma fold_left_extend {T U V} (g : U -> V -> list T) (l : list (U * V))
    (init : list T) :
  fold_left (fun boundaries '(s, e) => boundaries ++ g s e) l init =
  init ++ flat_map (fun '(s, e) => g s e) l.
Proof.
  revert init; induction l as [|[s e] l IH]; intros init; simpl.
  - rewrite app_nil_r; reflexivity.
  - rewrite IH, app_assoc; reflexivity.
Qed.

(** [zip(frames[:-1], frames[1:])] pairs each frame with its successor. *)
Lemma zip_successors (a b : nat) (l : list nat) :
  combine (removelast (a :: b :: l)) (tl (a :: b :: l)) =
  (a, b) :: combine (removelast (b :: l)) (tl (b :: l)).
Proof. reflexivity. Qed.

Section SegmentationTheorems.

Context {features : Type}.
Variable ward_labels : Z -> features -> list Z.
Variable frame_count : features -> nat.
Variable frame_slice : features -> nat -> nat -> features.
Variable fix_frames : list Z -> nat -> result (list nat).

(** X15. The boundaries of [agglomerative] are the change points of the
    clusterer's labels: the first boundary is [0], the boundaries are strictly
    increasing, a frame [b] is a boundary exactly when it is [0] or its label
    differs from the label of the frame before it, and there are at most as
    many boundaries as labels (one for an empty labelling). *)
Theorem agglomerative_boundaries (data : features) (k : Z)
    (clusterer : option (features -> list Z)) :
  let labels := cluster_labels ward_labels data k clusterer in
  let boundaries := agglomerative ward_labels data k clusterer in
  hd_error boundaries = Some 0 /\
  StronglySorted lt boundaries /\
  (forall b, In b boundaries <->
     b = 0 \/ (0 < b < length labels /\
               nth b labels 0%Z <> nth (b - 1) labels 0%Z)) /\
  length boundaries <= Nat.max 1 (length labels).
Proof.
  intros labels boundaries; unfold boundaries, agglomerative; fold labels.
  cbv zeta; split; [reflexivity|]; split; [|split].
  - apply (sorted_app [0]).
    + repeat constructor.
    + apply sorted_map; [intros; lia | apply sorted_np_nonzero].
    + intros x y [<-|[]] Hy; apply in_change_points in Hy; lia.
  - intros b; rewrite in_app_iff, in_change_points; simpl; intuition.
  - rewrite length_app, length_map.
    pose proof (np_nonzero_length (np_diff labels)) as H.
    rewrite np_diff_length in H.
    change (length [0]) with 1; lia.
Qed.

(** X16. Between two consecutive boundaries of [agglomerative] all frames
    carry one label: two frames with no boundary after the first and up to
    the second have the same label. *)
Theorem agglomerative_segments_homogeneous (data : features) (k : Z)
    (clusterer : option (features -> list Z)) (p q : nat) :
  p <= q < length (cluster_labels ward_labels data k clusterer) ->
  (forall b, In b (agglomerative ward_labels data k clusterer) ->
             ~ (p < b <= q)) ->
  nth p (cluster_labels ward_labels data k clusterer) 0%Z =
  nth q (cluster_labels ward_labels data k clusterer) 0%Z.
Proof.
  unfold agglomerative; cbv zeta.
  set (labels := cluster_labels ward_labels data k clusterer).
  induction q as [|q IH]; intros Hq Hb.
  - replace p with 0 by lia; reflexivity.
  - destruct (Nat.eq_dec p (S q)) as [->|Hp]; [reflexivity|].
    rewrite IH.
    + destruct (Z.eq_dec (nth (S q) labels 0%Z) (nth q labels 0%Z)) as [E|E];
        [symmetry; exact E|].
      exfalso; apply (Hb (S q)); [|lia].
      apply in_or_app; right; apply in_change_points.
      split; [lia|]; replace (S q - 1) with q by lia; exact E.
    + lia.
    + intros b Hin Hr; apply (Hb b Hin); lia.
Qed.

(** The sub-boundaries of one interval [(seg_start, seg_end)]. *)
Lemma interval_boundaries (data : features) (n_segments : Z) (s e : nat) :
  let piece :=
    map (fun b => s + b)
      (agglomerative ward_labels (frame_slice data s e)
         (Z.min (Z.of_nat e - Z.of_nat s) n_segments) None) in
  s < e ->
  length (ward_labels (Z.min (Z.of_nat e - Z.of_nat s) n_segments)
            (frame_slice data s e)) = e - s ->
  In s piece /\ StronglySorted lt piece /\ forall x, In x piece -> s <= x < e.
Proof.
  intros piece Hse Hlen; unfold piece.
  unfold agglomerative; cbv zeta; unfold cluster_labels.
  set (labels := ward_labels _ _) in *.
  split; [|split].
  - apply in_map_iff; exists 0; split; [lia | left; reflexivity].
  - apply sorted_map; [intros; lia|].
    apply (sorted_app [0]).
    + repeat constructor.
    + apply sorted_map; [intros; lia | apply sorted_np_nonzero].
    + intros x y [<-|[]] Hy; apply in_change_points in Hy; lia.
  - intros x Hx; apply in_map_iff in Hx; destruct Hx as (b & <- & Hb).
    apply in_app_or in Hb; destruct Hb as [[<-|[]]|Hb]; [lia|].
    apply in_change_points in Hb; rewrite Hlen in Hb; lia.
Qed.

Lemma sorted_hd_le_last (b : nat) (l : list nat) :
  StronglySorted lt (b :: l) -> b <= last (b :: l) 0.
Proof.
  revert b; induction l as [|c l IH]; intros b Hs; [simpl; lia|].
  change (last (b :: c :: l) 0) with (last (c :: l) 0).
  inversion Hs as [|? ? Hs' Hb]; subst.
  specialize (IH c Hs'); inversion Hb; subst; lia.
Qed.

Lemma flat_map_first {T U} (g : T -> list U) (x : T) (l : list T) :
  flat_map g (x :: l) = g x ++ flat_map g l.
Proof. reflexivity. Qed.

(** The loop of [subsegment] over the intervals of sorted frames. *)
Lemma subsegment_loop (data : features) (n_segments : Z) (frames : list nat) :
  let boundaries :=
    flat_map
      (fun '(seg_start, seg_end) =>
         map (fun b => seg_start + b)
           (agglomerative ward_labels (frame_slice data seg_start seg_end)
              (Z.min (Z.of_nat seg_end - Z.of_nat seg_start) n_segments) None))
      (combine (removelast frames) (tl frames)) in
  StronglySorted lt frames ->
  Forall (fun f => f <= frame_count data) frames ->
  (forall s e k, s <= e <= frame_count data ->
     length (ward_labels k (frame_slice data s e)) = e - s) ->
  StronglySorted lt boundaries /\
  (forall s, In s (removelast frames) -> In s boundaries) /\
  (forall b, In b boundaries -> hd 0 frames <= b < last frames 0).
Proof.
  intros boundaries Hs Hf Hlen; unfold boundaries; clear boundaries.
  set (g := fun '(seg_start, seg_end) => map (fun b => seg_start + b) _).
  induction frames as [|a [|b l] IH].
  - simpl; split; [constructor|]; split; [intros s []|intros b []].
  - simpl; split; [constructor|]; split; [intros s []|intros b []].
  - rewrite zip_successors.
    change (last (a :: b :: l) 0) with (last (b :: l) 0).
    change (removelast (a :: b :: l)) with (a :: removelast (b :: l)).
    inversion Hs as [|? ? Hs' Ha]; subst.
    inversion Hf as [|? ? Hfa Hf']; subst.
    assert (Hab : a < b) by (inversion Ha; assumption).
    assert (Hb : b <= frame_count data) by (inversion Hf'; assumption).
    pose proof (sorted_hd_le_last b l Hs') as Hlast.
    destruct (IH Hs' Hf') as (IH1 & IH2 & IH3); clear IH.
    assert (Hk : length (ward_labels (Z.min (Z.of_nat b - Z.of_nat a) n_segments)
                           (frame_slice data a b)) = b - a)
      by (apply Hlen; lia).
    destruct (interval_boundaries data n_segments a b Hab Hk) as (P1 & P2 & P3).
    rewrite flat_map_first.
    change (hd 0 (a :: b :: l)) with a; change (hd 0 (b :: l)) with b in IH3.
    split; [|split].
    + apply sorted_app; [exact P2 | exact IH1|].
      intros x y Hx Hy; apply P3 in Hx; apply IH3 in Hy; lia.
    + intros s [<-|Hin]; apply in_or_app; [left; exact P1 | right; apply IH2, Hin].
    + intros x Hx; apply in_app_or in Hx; destruct Hx as [Hx|Hx].
      * apply P3 in Hx; lia.
      * apply IH3 in Hx; lia.
Qed.

(** X17. When [fix_frames] returns frames in strictly increasing order within
    the data and the clusterer labels every frame of a slice, [subsegment]
    with [n_segments >= 1] refines the segmentation: its boundaries are
    strictly increasing, every frame but the last is a boundary, and every
    boundary lies from the first frame up to, and excluding, the last. *)
Theorem subsegment_refines (data : features) (frames : list Z) (n_segments : Z)
    (fixed : list nat) :
  fix_frames frames (frame_count data) = Ok fixed ->
  StronglySorted lt fixed ->
  Forall (fun f => f <= frame_count data) fixed ->
  (forall s e k, s <= e <= frame_count data ->
     length (ward_labels k (frame_slice data s e)) = e - s) ->
  (1 <= n_segments)%Z ->
  exists boundaries,
    subsegment ward_labels frame_count frame_slice fix_frames data frames
      n_segments = Ok boundaries /\
    StronglySorted lt boundaries /\
    (forall s, In s (removelast fixed) -> In s boundaries) /\
    (forall b, In b boundaries -> hd 0 fixed <= b < last fixed 0).
Proof.
  intros Hfix Hs Hf Hlen Hn; unfold subsegment; rewrite Hfix; unfold bind.
  destruct (Z.ltb_spec n_segments 1) as [H|_]; [lia|].
  eexists; split; [reflexivity|].
  rewrite (fold_left_extend
             (fun seg_start seg_end =>
                map (fun b => seg_start + b)
                  (agglomerative ward_labels (frame_slice data seg_start seg_end)
                     (Z.min (Z.of_nat seg_end - Z.of_nat seg_start) n_segments)
                     None))).
  apply (subsegment_loop data n_segments fixed Hs Hf Hlen).
Qed.

End SegmentationTheorems.

(* ================================================================= *)
(** ** lag_to_recurrence: the entries *)

Section RecurrenceEntries.
Context {A : Type} (zero : A).

(** [a[:t]] keeps the first [t] rows. *)
Lemma slice_upto_rows (r c t : nat) (a : ndarray A) :
  is_matrix r c a = true -> t <= r ->
  is_matrix t c (slice_upto 0 t a) = true /\
  forall i j, i < t ->
    get zero (rows (slice_upto 0 t a)) i j = get zero (rows a) i j.
Proof.
  intros Ha Ht; apply is_matrix_spec in Ha; destruct Ha as (Hs & Hl & Hr).
  unfold slice_upto; rewrite Hs; simpl; split.
  - apply is_matrix_spec; simpl; split; [f_equal; lia|]; split.
    + rewrite length_firstn; lia.
    + apply Forall_forall; intros x Hx.
      rewrite Forall_forall in Hr; apply Hr.
      rewrite <- (firstn_skipn t (rows a)); apply in_or_app; left; exact Hx.
  - intros i j Hi; unfold get.
    rewrite <- (firstn_skipn t (rows a)) at 2.
    rewrite app_nth1 by (rewrite length_firstn; lia); reflexivity.
Qed.

(** X19. With the default axis, [lag_to_recurrence] of a lag matrix of shape
    [(t, t)] or [(2t, t)] that can be subscripted (an ndarray or a sparse
    matrix in csr, csc, lil or dok format) is a [t] by [t] matrix with
    [rec[i, j] == lag[(i - j) mod s, j]], [s] being the number of rows of the
    lag matrix: column [j] is rolled forward by [j] and the padding rows are
    cut off. *)
Theorem lag_to_recurrence_entries (l : matrix A) (s t : nat) :
  is_matrix s t (content l) = true ->
  s = t \/ s = 2 * t ->
  subscriptable l = true ->
  exists rec,
    lag_to_recurrence zero l (-1) = Ok (with_content l rec) /\
    is_matrix t t rec = true /\
    forall i j, i < t -> j < t ->
      get zero (rows rec) i j =
      get zero (rows (content l)) ((i + s - j) mod s) j.
Proof.
  intros Hl Hst Hsub.
  rewrite (lag_to_recurrence_shaped zero l s t 1 (-1) Hsub (is_matrix_shape _ _ _ Hl)
             ltac:(simpl; tauto) eq_refl Hst).
  change (1 - 1) with 0; change (slice_count 1 s t) with t.
  assert (HG : forall i (v : list A), i < slice_count 1 s t ->
            length v = slice_length 1 s t ->
            length (roll_sparse (get_slice zero 1 i (content l)) (Z.of_nat i)) =
            slice_length 1 s t).
  { intros i v _ _; rewrite roll_sparse_length.
    apply (get_slice_length zero 1 i s t (content l) Hl); discriminate. }
  destruct (slice_loop zero 1 s t
              (fun i _ => roll_sparse (get_slice zero 1 i (content l)) (Z.of_nat i))
              HG (seq 1 (t - 1)) (content l) (seq_NoDup _ _)) as [Hrec Hsl];
    [intros i Hi; apply in_seq in Hi; unfold slice_count; simpl; lia | exact Hl |].
  cbv zeta in Hsl.
  set (full := fold_left _ (seq 1 (t - 1)) (content l)) in *.
  destruct (slice_upto_rows s t t full Hrec ltac:(lia)) as [Hcut Hget].
  eexists; split; [reflexivity|]; split; [exact Hcut|].
  intros i j Hi Hj; rewrite Hget by exact Hi.
  assert (Hs : 0 < s) by lia.
  pose proof (nth_get_slice zero 1 j i full) as Hn.
  change (1 =? 0) with false in Hn; cbv iota in Hn.
  rewrite <- Hn, (Hsl j Hj).
  pose proof (get_slice_length zero 1 j s t (content l) Hl ltac:(discriminate))
    as Hlen.
  change (1 =? 0) with false in Hlen; cbv iota in Hlen.
  destruct (in_dec Nat.eq_dec j (seq 1 (t - 1))) as [Hin|Hnot].
  - rewrite nth_roll_sparse by (rewrite Hlen; lia).
    rewrite Hlen, nth_get_slice.
    change (1 =? 0) with false; cbv iota; f_equal.
    replace (Z.of_nat i - Z.of_nat j)%Z
      with (Z.of_nat (i + s - j) + (-1) * Z.of_nat s)%Z by lia.
    rewrite Z.mod_add by lia.
    rewrite <- Nat2Z.inj_mod, Nat2Z.id; reflexivity.
  - assert (j = 0) by (destruct (Nat.eq_dec j 0); [assumption|];
                       exfalso; apply Hnot, in_seq; lia).
    subst j; rewrite nth_get_slice.
    change (1 =? 0) with false; cbv iota.
    replace (i + s - 0) with (i + 1 * s) by lia.
    rewrite Nat.Div0.mod_add, Nat.mod_small by lia; reflexivity.
Qed.

End RecurrenceEntries.

(* ================================================================= *)
(** ** The further properties on concrete calls *)

(** C1 on the 2 by 2 coo matrix [[1, 0], [2, 3]]: the lag matrix comes back
    in coo format and [lag_to_recurrence] raises TypeError on it. *)
Lemma lag_round_trip_type_error :
  is_matrix 2 2 (content example_sparse) = true /\
  subscriptable example_sparse = false /\
  recurrence_to_lag 0%Z example_sparse true (-1) =
  Ok (Sparse coo (mk_ndarray [4; 2] [[1; 3]; [2; 0]; [0; 0]; [0; 0]]%Z)) /\
  exists lag,
    recurrence_to_lag 0%Z example_sparse true (-1) = Ok lag /\
    lag_to_recurrence 0%Z lag (-1) = Raise TypeError.
Proof.
  split; [reflexivity|].
  split; [reflexivity|].
  split; [reflexivity|].
  apply (lag_to_recurrence_not_subscriptable 0%Z example_sparse 2 (-1)%Z);
    [reflexivity | simpl; tauto | reflexivity | lia].
Defined.

(** X20 on the same matrix in csr format. *)
Lemma lag_round_trip_example :
  is_matrix 2 2 (content example_csr) = true /\
  In (-1)%Z [0; 1; -1]%Z /\
  subscriptable example_csr = true /\
  exists lag,
    recurrence_to_lag 0%Z example_csr true (-1) = Ok lag /\
    lag_to_recurrence 0%Z lag (-1) = Ok example_csr.
Proof.
  split; [reflexivity|].
  split; [simpl; tauto|].
  split; [reflexivity|].
  apply (lag_to_recurrence_recurrence_to_lag 0%Z example_csr 2 (-1)%Z);
    [reflexivity | simpl; tauto | reflexivity].
Defined.

(** X2 on a 2 by 2 csr matrix and [axis=1]. *)
Lemma lag_transforms_inverse_unpadded_example :
  is_matrix 2 2 (content example_csr) = true /\
  In 1%Z [0; 1; -1]%Z /\
  subscriptable example_csr = true /\
  (exists lag,
     recurrence_to_lag 0%Z example_csr false 1 = Ok lag /\
     lag_to_recurrence 0%Z lag 1 = Ok example_csr) /\
  (exists rec,
     lag_to_recurrence 0%Z example_csr 1 = Ok rec /\
     recurrence_to_lag 0%Z rec false 1 = Ok example_csr).
Proof.
  split; [reflexivity|].
  split; [simpl; tauto|].
  split; [reflexivity|].
  apply (lag_transforms_inverse_unpadded 0%Z example_csr 2 1%Z);
    [reflexivity | simpl; tauto | reflexivity].
Defined.

(** X3 on the 4 by 4 matrix with only (0, 2) and (2, 0) set. *)
Lemma recurrence_to_lag_padded_entries_example :
  is_matrix 4 4 (content (Dense example_bool)) = true /\
  exists lag,
    recurrence_to_lag false (Dense example_bool) true (-1) = Ok (Dense lag) /\
    is_matrix 8 4 lag = true /\
    (forall i j, i < 8 -> j < 4 ->
       get false (rows lag) i j =
       if (i + j) mod 8 <? 4
       then get false (rows example_bool) ((i + j) mod 8) j
       else false) /\
    (forall i j, i < 4 -> j < 4 ->
       get false (rows lag) i j =
       if i + j <? 4 then get false (rows example_bool) (i + j) j else false).
Proof.
  split; [reflexivity|].
  apply (recurrence_to_lag_padded_entries false (Dense example_bool) 4).
  reflexivity.
Defined.

(** X4 on a call with a csr matrix as the only positional argument. *)
Lemma timelag_filter_pointwise_example :
  list_position [example_csr] 0 = Ok 0 /\
  nth_error [example_csr] 0 = Some example_csr /\
  is_matrix 2 2 (content example_csr) = true /\
  subscriptable example_csr = true /\
  timelag_filter 0%Z
    (fun args' (_ : unit) =>
       match nth_error args' 0 with
       | Some x => Ok (map_matrix Z.succ x)
       | None => Raise IndexError
       end)
    true 0 [example_csr] tt = Ok (map_matrix Z.succ example_csr) /\
  timelag_filter 0%Z
    (fun args' (_ : unit) =>
       match nth_error args' 0 with
       | Some x => Ok x
       | None => Raise IndexError
       end)
    true 0 [example_csr] tt = Ok example_csr.
Proof.
  split; [reflexivity|].
  split; [reflexivity|].
  split; [reflexivity|].
  split; [reflexivity|].
  apply (timelag_filter_pointwise 0%Z Z.succ true 0%Z [example_csr] tt 0 2
           example_csr); reflexivity.
Defined.


(** X8 on two points in connectivity mode. *)
Lemma recurrence_matrix_mutual_links_example :
  valid_parameters 2 1 "connectivity" None /\
  "connectivity"%string <> "affinity"%string /\
  nonnegative_distances two_points /\
  exists mutual out,
    recurrence_matrix 2 two_points None 1 true false "connectivity" None false
    = Ok mutual /\
    recurrence_matrix 2 two_points None 1 false false "connectivity" None false
    = Ok out /\
    forall i j, i < 2 -> j < 2 ->
      nonzero_at mutual i j = nonzero_at out i j && nonzero_at out j i.
Proof.
  split; [exact valid_connectivity_example|].
  split; [discriminate|].
  split; [exact two_points_nonnegative|].
  apply (recurrence_matrix_mutual_links 2 two_points None 1 false
           "connectivity" None false valid_connectivity_example);
    [discriminate | exact two_points_nonnegative].
Defined.

(** X9 on two points in affinity mode with a supplied bandwidth and
    [self=True]: the diagonal holds 1. *)
Lemma recurrence_matrix_diagonal_example :
  valid_parameters 2 1 "affinity" (Some 1%R) /\
  bandwidth_defined 2 two_points None 1 false "affinity" (Some 1%R) true /\
  exists out,
    recurrence_matrix 2 two_points None 1 false false "affinity" (Some 1%R) true
    = Ok out /\
    forall i, i < 2 -> diagonal_entry out i = inl (Fin 1).
Proof.
  split; [exact valid_bandwidth_example|].
  split; [unfold bandwidth_defined, affinity_bandwidth; discriminate|].
  apply (recurrence_matrix_diagonal 2 two_points None 1 false false
           "affinity" (Some 1%R) true valid_bandwidth_example).
  intros _; unfold bandwidth_defined, affinity_bandwidth; discriminate.
Defined.

(** X10 on two points with [k=1]. *)
Lemma recurrence_matrix_at_most_k_links_example :
  valid_parameters 2 1 "connectivity" None /\
  nonnegative_distances two_points /\
  (0 <= neighbours 2 (Some 1%Z) 1)%Z /\
  exists out,
    recurrence_matrix 2 two_points (Some 1%Z) 1 false false "connectivity" None
      false = Ok out /\
    forall i, i < 2 ->
      length (links_of 2 out i) <= Z.to_nat (neighbours 2 (Some 1%Z) 1).
Proof.
  split; [exact valid_connectivity_example|].
  split; [exact two_points_nonnegative|].
  split; [vm_compute; discriminate|].
  apply (recurrence_matrix_at_most_k_links 2 two_points (Some 1%Z) 1 false false
           "connectivity" None false valid_connectivity_example
           two_points_nonnegative).
  vm_compute; discriminate.
Defined.

(** X14 on a 1 by 2 input with three filters. *)
Lemma path_enhance_pointwise_maximum_example :
  (0 < 2)%R /\ (1 <= 3)%Z /\
  (forall ker, is_matrix 1 2 (identity_convolve example_input ker tt) = true) /\
  exists ratios out,
    slope_ratios 2 None 3 = Ok ratios /\
    path_enhance unit_filter identity_convolve example_input 3 tt 2 None 3
      false false tt = Ok (Some out) /\
    is_matrix 1 2 out = true /\
    forall i j, i < 1 -> j < 2 ->
      (forall ratio, In ratio ratios ->
         (get 0 (rows (identity_convolve example_input
                         (unit_filter tt 3 ratio false) tt)) i j
          <= get 0 (rows out) i j)%R) /\
      (exists ratio, In ratio ratios /\
         get 0%R (rows out) i j =
         get 0%R (rows (identity_convolve example_input
                          (unit_filter tt 3 ratio false) tt)) i j).
Proof.
  split; [lra|].
  split; [lia|].
  split; [intros ker; reflexivity|].
  apply (path_enhance_pointwise_maximum unit_filter identity_convolve
           example_input 3 tt 2 None 3 false tt 1 2);
    [lra | discriminate | lia | intros ker; reflexivity].
Defined.

(** X16 on the signal [5, 5, 7, 7, 7] labelled by value: the boundaries are
    0 and 2, and frames 2 to 4 carry one label. *)
Lemma agglomerative_segments_homogeneous_example :
  agglomerative label_by_value example_signal 2 None = [0; 2] /\
  2 <= 4 < length (cluster_labels label_by_value example_signal 2 None) /\
  nth 2 (cluster_labels label_by_value example_signal 2 None) 0%Z =
  nth 4 (cluster_labels label_by_value example_signal 2 None) 0%Z.
Proof.
  split; [reflexivity|].
  split; [simpl; lia|].
  apply (agglomerative_segments_homogeneous label_by_value example_signal 2 None
           2 4); [simpl; lia|].
  intros b [<-|[<-|[]]]; lia.
Defined.

(** X17 on the signal [5, 5, 7, 7, 7] with the one frame 2. *)
Lemma subsegment_refines_example :
  pad_frames [2%Z] (length example_signal) = Ok [0; 2; 5] /\
  StronglySorted lt [0; 2; 5] /\
  (1 <= 4)%Z /\
  exists boundaries,
    subsegment label_by_value (@length Z) signal_slice pad_frames
      example_signal [2%Z] 4 = Ok boundaries /\
    StronglySorted lt boundaries /\
    (forall s, In s [0; 2] -> In s boundaries) /\
    (forall b, In b boundaries -> 0 <= b < 5).
Proof.
  split; [reflexivity|].
  split; [repeat constructor; lia|].
  split; [lia|].
  apply (subsegment_refines label_by_value (@length Z) signal_slice pad_frames
           example_signal [2%Z] 4 [0; 2; 5]).
  - reflexivity.
  - repeat constructor; lia.
  - repeat constructor; simpl; lia.
  - intros s e k H; unfold label_by_value, signal_slice.
    rewrite length_firstn, length_skipn; lia.
  - lia.
Defined.

(** X19 on a padded lag matrix of shape (4, 2). *)
Lemma lag_to_recurrence_entries_example :
  is_matrix 4 2 (content (Dense example_lag)) = true /\
  lag_to_recurrence 0%Z (Dense example_lag) (-1) =
  Ok (Dense (mk_ndarray [2; 2] [[1; 0]; [3; 2]]%Z)) /\
  exists rec,
    lag_to_recurrence 0%Z (Dense example_lag) (-1) = Ok (Dense rec) /\
    is_matrix 2 2 rec = true /\
    forall i j, i < 2 -> j < 2 ->
      get 0%Z (rows rec) i j = get 0%Z (rows example_lag) ((i + 4 - j) mod 4) j.
Proof.
  split; [reflexivity|].
  split; [reflexivity|].
  apply (lag_to_recurrence_entries 0%Z (Dense example_lag) 4 2);
    [reflexivity | right; reflexivity | reflexivity].
Defined.
